(** * Reddit crawler: checkpointed two-phase crawl engine

    A shallow embedding of [src/crawler.py] (class [RedditCrawler]) and the
    properties of its checkpoint store, candidate collector, challenge
    detector, comment parser and driver.

    Conventions of the embedding.
    - A Python [str] is a [string] holding its UTF-8 bytes.  All patterns
      and keywords searched by the code are ASCII, except one keyword that
      is compared bytewise.  [str.lower()] follows the Unicode case
      mappings of the interpreter, which are not part of the repository:
      it is a parameter [str_lower] of the definitions that call it.
    - JSON numbers (timestamps, scores, indices) are [Z]; lengths and
      [max_posts] are [nat].
    - A file is [Missing], holds a complete JSON document ([Content]) or
      holds the text of an interrupted write ([Torn]), which [json.load]
      rejects.
    - [try ... except Exception] blocks are written out: the model of a
      function returns normally exactly where the Python function does, and
      the messages it logs go to the [log] of the disk. *)

From Stdlib Require Import ZArith String Ascii List Bool Lia.
From stdpp Require Import base gmap strings list.

#[local] Set Warnings "-register-all".

Local Open Scope string_scope.
Local Open Scope Z_scope.

(* ===================================================================== *)
(** * Python string helpers                                               *)
(* ===================================================================== *)

(** [s.startswith(p)] *)
Fixpoint startswith (p s : string) : bool :=
  match p, s with
  | EmptyString, _ => true
  | String a p', String b s' => Ascii.eqb a b && startswith p' s'
  | String _ _, EmptyString => false
  end.

(** [sub in s] *)
Fixpoint contains (sub s : string) : bool :=
  startswith sub s
  || match s with
     | EmptyString => false
     | String _ s' => contains sub s'
     end.

(** Removes a literal prefix, [None] when [s] does not start with it. *)
Fixpoint strip_prefix (p s : string) : option string :=
  match p, s with
  | EmptyString, _ => Some s
  | String a p', String b s' =>
      if Ascii.eqb a b then strip_prefix p' s' else None
  | String _ _, EmptyString => None
  end.

(** Longest prefix of [s] whose characters satisfy [f], and the rest. *)
Fixpoint span (f : ascii -> bool) (s : string) : string * string :=
  match s with
  | EmptyString => (EmptyString, EmptyString)
  | String c s' =>
      if f c then let '(run, rest) := span f s' in (String c run, rest)
      else (EmptyString, s)
  end.

(** The character class [[a-zA-Z0-9]]. *)
Definition is_alnum (c : ascii) : bool :=
  let n := nat_of_ascii c in
  ((48 <=? n)%nat && (n <=? 57)%nat)
  || ((65 <=? n)%nat && (n <=? 90)%nat)
  || ((97 <=? n)%nat && (n <=? 122)%nat).

(** The character class [[^/]]. *)
Definition not_slash (c : ascii) : bool := negb (Ascii.eqb c "/"%char).

(** Truthiness of a value obtained with [dict.get]: present and non-empty. *)
Definition truthy_str (o : option string) : bool :=
  match o with
  | Some s => negb (String.eqb s EmptyString)
  | None => false
  end.

Definition truthy_num (o : option Z) : bool :=
  match o with
  | Some z => negb (z =? 0)
  | None => false
  end.

(** ** [_extract_post_id]: [re.search(r'/comments/([a-zA-Z0-9]+)/', url)] *)

(** An attempt to match the pattern at the start of [s].  The class is
    greedy, and the character after the run is not in the class, so the
    attempt succeeds exactly when the maximal run is non-empty and followed
    by a slash. *)
Definition match_post_id (s : string) : option string :=
  match strip_prefix "/comments/" s with
  | Some rest =>
      match span is_alnum rest with
      | (String c run, String "/" _) => Some (String c run)
      | _ => None
      end
  | None => None
  end.

(** [re.search] tries every start position from the left. *)
Fixpoint _extract_post_id (url : string) : option string :=
  match match_post_id url with
  | Some i => Some i
  | None =>
      match url with
      | EmptyString => None
      | String _ url' => _extract_post_id url'
      end
  end.

(** ** [_extract_subreddit_name]: [re.search(r'/r/([^/]+)', url)] *)

Definition match_subreddit (s : string) : option string :=
  match strip_prefix "/r/" s with
  | Some rest =>
      match span not_slash rest with
      | (String c run, _) => Some (String c run)
      | _ => None
      end
  | None => None
  end.

Fixpoint search_subreddit (url : string) : option string :=
  match match_subreddit url with
  | Some n => Some n
  | None =>
      match url with
      | EmptyString => None
      | String _ url' => search_subreddit url'
      end
  end.

Definition _extract_subreddit_name (url : string) : string :=
  match search_subreddit url with
  | Some n => n
  | None => "unknown_subreddit"
  end.

(* ===================================================================== *)
(** * Comment tree: [_parse_comment]                                      *)
(* ===================================================================== *)

(** The fields read from [comment_data['data']]; [None] is an absent key
    (also the case of an absent ['data'], which the code replaces by
    [{}]). *)
Record raw_fields := {
  rf_author : option string;
  rf_body : option string;
  rf_score : option Z;
  rf_created_utc : option Z
}.

(** A node of the comment forest of the structured post endpoint.
    [raw_replies] is [Some children] when [data['replies']] is a dict,
    [children] being its [data.children] list (empty when either key is
    absent), and [None] when the field is absent or is not a dict (the
    endpoint sends an empty string for a comment without replies). *)
Inductive raw_comment := RawComment {
  raw_kind : option string;
  raw_data : raw_fields;
  raw_replies : option (list raw_comment)
}.

(** The dict built by [_parse_comment]. *)
Inductive comment := Comment {
  author : string;
  text : string;
  score : Z;
  created_time : string;
  replies : list comment;
  reply_count : nat
}.

Definition is_more (c : raw_comment) : bool :=
  match raw_kind c with
  | Some k => String.eqb k "more"
  | None => false
  end.

Definition raw_children (c : raw_comment) : list raw_comment :=
  match raw_replies c with
  | Some children => children
  | None => []
  end.

Section CommentTree.

(** [datetime.fromtimestamp(t).strftime(...)]: depends on the local time
    zone; [None] when it raises (timestamp out of the platform's range). *)
Variable strftime : Z -> option string.

Definition _convert_time (timestamp : Z) : string :=
  if timestamp =? 0 then "N/A"
  else match strftime timestamp with
       | Some s => s
       | None => "N/A"
       end.

Fixpoint _parse_comment (comment_data : raw_comment) : option comment :=
  match comment_data with
  | RawComment kind data replies_raw =>
      if match kind with Some k => String.eqb k "more" | None => false end
      then None
      else
        let parsed_replies :=
          match replies_raw with
          | Some children =>
              (fix each (l : list raw_comment) : list comment :=
                 match l with
                 | [] => []
                 | child :: l' =>
                     match _parse_comment child with
                     | Some child_parsed => child_parsed :: each l'
                     | None => each l'
                     end
                 end) children
          | None => []
          end in
        Some {| author := default "[Deleted]" (rf_author data);
                text := default "[无文本]" (rf_body data);
                score := default 0 (rf_score data);
                created_time :=
                  _convert_time (default 0 (rf_created_utc data));
                replies := parsed_replies;
                reply_count := length parsed_replies |}
  end.

End CommentTree.

(** The reconstructed tree of the specification: placeholders dropped at
    every depth, the other children kept in order, [reply_count] the number
    of kept children. *)
Inductive reconstructs : raw_comment -> comment -> Prop :=
| Reconstructs c p :
    is_more c = false ->
    Forall2 reconstructs
      (List.filter (fun ch => negb (is_more ch)) (raw_children c))
      (replies p) ->
    reply_count p =
      length (List.filter (fun ch => negb (is_more ch)) (raw_children c)) ->
    reconstructs c p.

(* ===================================================================== *)
(** * Challenge detection: [_check_and_handle_captcha_or_login]           *)
(* ===================================================================== *)

(** What [page.query_selector_all(selector)] and the [is_visible] calls on
    its elements give: the query raises, or each element answers or
    raises. *)
Inductive selector_probe :=
| QueryRaises
| Elements (visible : list (option bool)).

(** [page.query_selector("pre")] followed by [text_content()]. *)
Inductive pre_probe :=
| PreMissing                       (* no <pre> element: the result is None *)
| PreText (s : option string).     (* text_content(), possibly None *)

(** [page.locator('body').text_content()]. *)
Inductive body_probe :=
| BodyRaises
| BodyText (s : option string).

Record page := {
  query_selector_all : string -> selector_probe;
  pre_element : pre_probe;
  body_text : body_probe
}.

(** The double-quote character of the attribute selectors. *)
Definition dq : string := String (ascii_of_nat 34) EmptyString.

Definition captcha_selectors : list string :=
  [ "[data-testid=" ++ dq ++ "captcha" ++ dq ++ "]";
    ".g-recaptcha";
    "#recaptcha";
    "[class*=" ++ dq ++ "captcha" ++ dq ++ "]";
    "[id*=" ++ dq ++ "captcha" ++ dq ++ "]";
    "iframe[src*=" ++ dq ++ "recaptcha" ++ dq ++ "]";
    "iframe[src*=" ++ dq ++ "captcha" ++ dq ++ "]";
    "[aria-label*=" ++ dq ++ "captcha" ++ dq ++ "]";
    "[aria-label*=" ++ dq ++ "verification" ++ dq ++ "]" ].

Definition captcha_keywords : list string :=
  [ "captcha"; "verification"; "prove you are human"; "robot check";
    "login"; "sign in"; "登录" ].

(** The inner [for element in elements] loop: [Some true] at the first
    visible element, [None] when an [is_visible] call raises before one. *)
Fixpoint first_visible (els : list (option bool)) : option bool :=
  match els with
  | [] => Some false
  | Some true :: _ => Some true
  | Some false :: els' => first_visible els'
  | None :: _ => None
  end.

(** One iteration of [for selector in captcha_selectors]; an exception
    skips to the next selector. *)
Definition selector_matches (pr : selector_probe) : bool :=
  match pr with
  | QueryRaises => false
  | Elements els =>
      match first_visible els with
      | Some true => true
      | _ => false
      end
  end.

Definition scan_selectors (p : page) : bool :=
  existsb (fun sel => selector_matches (query_selector_all p sel))
          captcha_selectors.

(** ["title" in s and "author" in s and "selftext" in s] *)
Definition has_post_fields (json_string : string) : bool :=
  contains "title" json_string
  && contains "author" json_string
  && contains "selftext" json_string.

Section Challenge.

(** [str.lower()], applied to the UTF-8 text of the page body. *)
Variable str_lower : string -> string.

(** [if page_text: ...] with the loop over the keywords; an exception of
    the body probe is swallowed by the inner [except]. *)
Definition scan_keywords (b : body_probe) : bool :=
  match b with
  | BodyRaises => false
  | BodyText None => false
  | BodyText (Some page_text) =>
      negb (String.eqb page_text EmptyString)
      && let page_text_lower := str_lower page_text in
         existsb (fun keyword => contains keyword page_text_lower)
                 captcha_keywords
  end.

Inductive challenge_source := BySelector | ByKeyword.

Inductive pass_reason :=
| StructuredData      (* the early [return] on the post's key fields *)
| NothingFound        (* [captcha_found] stayed False *)
| CheckRaised.        (* the outer [except Exception] logged an error *)

(** [Blocked]: the function enters its [input] loop and waits for the
    operator; [Passed]: it returns without waiting. *)
Inductive verdict :=
| Blocked (src : challenge_source)
| Passed (why : pass_reason).

Definition _check_and_handle_captcha_or_login (p : page) : verdict :=
  if scan_selectors p then Blocked BySelector
  else
    match pre_element p with
    | PreMissing => Passed CheckRaised
    | PreText None => Passed CheckRaised
    | PreText (Some json_string) =>
        if has_post_fields json_string then Passed StructuredData
        else if scan_keywords (body_text p) then Blocked ByKeyword
        else Passed NothingFound
    end.

End Challenge.

(* ===================================================================== *)
(** * Checkpoint store and output sink                                    *)
(* ===================================================================== *)

(** An element of [collected_urls]: [{"url": ..., "created_utc": ...}];
    the single-post shortcut of [collect_post_urls] builds one without
    [created_utc]. *)
Record candidate := {
  url : string;
  created_utc : option Z
}.

(** The [collection_progress] dict of [save_url_collection_progress]
    ([last_collection_time], a wall-clock stamp, is left out).  The id list
    is written from a Python [set] and only ever read back into one, so it
    is kept as a set. *)
Record collection_progress := {
  cp_collected_count : nat;
  cp_target_count : nat;
  cp_latest_post_timestamp : option Z;
  cp_before_timestamp : option Z;
  cp_collected_post_ids : gset string;
  cp_is_collection_complete : bool
}.

(** The JSON document of the state file ([last_updated] left out). *)
Record state_data := {
  current_post_index : Z;
  collected_urls_with_source : list candidate;
  total_collected : nat;
  sd_total_crawled_count : nat;
  sd_subreddit_name : string;
  sd_max_posts : nat;
  url_collection_progress : option collection_progress;
  is_collection_complete : bool
}.

(** The [post_data] dict of [fetch_post_json]; its remaining scalar fields
    are copied from the endpoint and play no part below. *)
Record post_record := {
  post_id : option string;
  post_url : string;
  post_title : string;
  post_comments : list comment
}.

Inductive file (A : Type) :=
| Missing
| Content (a : A)
| Torn.
Arguments Missing {A}.
Arguments Content {A} a.
Arguments Torn {A}.

(** How the next [open(path, 'w')] followed by [json.dump] ends: it
    succeeds, [open] raises (the file is untouched), or the dump raises
    after the file was truncated. *)
Inductive write_fault := WriteOk | OpenFails | DumpFails.

Inductive log_event :=
| SaveProgressFailed        (* "保存进度失败" *)
| StateFileMissing          (* "状态文件不存在，无法更新进度索引" *)
| UpdateIndexFailed         (* "更新进度索引失败" *)
| SaveDataFailed            (* "保存数据失败" *)
| SubredditUnknown.         (* "无法从URL提取subreddit名称" *)

(** The files of one crawl target, the outcome of the writes still to
    come (every write succeeds once the list is used up), and the
    warnings and errors logged so far. *)
Record disk := {
  state_file : file state_data;
  output_file : file (list post_record);
  faults : list write_fault;
  log : list log_event
}.

(** The attributes of a [RedditCrawler] that the crawl reads or changes. *)
Record crawler := {
  subreddit_url : string;
  max_posts : nat;
  all_posts_data : list post_record;
  total_crawled_count : nat
}.

(** [RedditCrawler(subreddit_url, max_posts)] *)
Definition new_crawler (target : string) (n : nat) : crawler :=
  {| subreddit_url := target; max_posts := n;
     all_posts_data := []; total_crawled_count := 0 |}.

Definition write_file {A} (old : file A) (new : A) (f : write_fault)
  : file A * bool :=
  match f with
  | WriteOk => (Content new, true)
  | OpenFails => (old, false)
  | DumpFails => (Torn, false)
  end.

Definition next_fault (d : disk) : write_fault * list write_fault :=
  match faults d with
  | [] => (WriteOk, [])
  | f :: fs => (f, fs)
  end.

Definition logged (d : disk) (e : list log_event) : disk :=
  {| state_file := state_file d; output_file := output_file d;
     faults := faults d; log := log d ++ e |}.

(** [with open(self.state_file, 'w') as f: json.dump(doc, f)] inside a
    [try] whose handler logs [on_failure]. *)
Definition write_state (d : disk) (doc : state_data)
  (on_failure : list log_event) : disk :=
  let '(f, fs) := next_fault d in
  let '(sf, ok) := write_file (state_file d) doc f in
  {| state_file := sf; output_file := output_file d; faults := fs;
     log := if ok then log d else log d ++ on_failure |}.

Definition save_progress (self : crawler) (current_index : Z)
  (url_list : list candidate) (is_complete : bool)
  (progress : option collection_progress) (d : disk) : disk :=
  write_state d
    {| current_post_index := current_index;
       collected_urls_with_source := url_list;
       total_collected := length url_list;
       sd_total_crawled_count := total_crawled_count self;
       sd_subreddit_name := _extract_subreddit_name (subreddit_url self);
       sd_max_posts := max_posts self;
       url_collection_progress := progress;
       is_collection_complete := is_complete |}
    [SaveProgressFailed].

(** The ids recomputed from the collected URLs (the loop of
    [save_url_collection_progress], and of the fresh start of
    [collect_post_urls]). *)
Fixpoint ids_of_urls (urls : list candidate) : gset string :=
  match urls with
  | [] => ∅
  | url_data :: urls' =>
      let found := _extract_post_id (url url_data) in
      if truthy_str found
      then {[ default EmptyString found ]} ∪ ids_of_urls urls'
      else ids_of_urls urls'
  end.

(** [a or b] on timestamps. *)
Definition or_else (a b : option Z) : option Z :=
  if truthy_num a then a else b.

Definition save_url_collection_progress (self : crawler)
  (urls : list candidate) (before_timestamp : option Z) (target : nat)
  (d : disk) : disk :=
  let latest :=
    match last urls with
    | Some last_url_data =>
        match created_utc last_url_data with
        | Some t => Some t
        | None => before_timestamp
        end
    | None => None
    end in
  let complete := (target <=? length urls)%nat in
  save_progress self 1 urls complete
    (Some {| cp_collected_count := length urls;
             cp_target_count := target;
             cp_latest_post_timestamp := or_else latest before_timestamp;
             cp_before_timestamp := before_timestamp;
             cp_collected_post_ids := ids_of_urls urls;
             cp_is_collection_complete := complete |})
    d.

Definition with_index (sd : state_data) (current_index : Z) (crawled : nat)
  : state_data :=
  {| current_post_index := current_index;
     collected_urls_with_source := collected_urls_with_source sd;
     total_collected := total_collected sd;
     sd_total_crawled_count := crawled;
     sd_subreddit_name := sd_subreddit_name sd;
     sd_max_posts := sd_max_posts sd;
     url_collection_progress := url_collection_progress sd;
     is_collection_complete := is_collection_complete sd |}.

Definition update_progress_index (self : crawler) (current_index : Z)
  (d : disk) : disk :=
  match state_file d with
  | Missing => logged d [StateFileMissing; UpdateIndexFailed]
  | Torn => logged d [UpdateIndexFailed]
  | Content sd =>
      write_state d (with_index sd current_index (total_crawled_count self))
        [UpdateIndexFailed]
  end.

Definition with_total (self : crawler) (n : nat) : crawler :=
  {| subreddit_url := subreddit_url self; max_posts := max_posts self;
     all_posts_data := all_posts_data self; total_crawled_count := n |}.

(** What [load_progress] returns; an empty or absent progress dict is
    [None] (the callers only test its truth value before reading it). *)
Record progress := {
  p_current_index : Z;
  p_url_list : list candidate;
  p_is_collection_complete : bool;
  p_collection_progress : option collection_progress
}.

Definition fresh_start : progress :=
  {| p_current_index := 1; p_url_list := [];
     p_is_collection_complete := false; p_collection_progress := None |}.

Definition load_progress (self : crawler) (d : disk) : progress * crawler :=
  match state_file d with
  | Content sd =>
      let current_index := current_post_index sd in
      let url_list := collected_urls_with_source sd in
      let self' := with_total self (sd_total_crawled_count sd) in
      let progress := url_collection_progress sd in
      let complete := (max_posts self <=? length url_list)%nat in
      if complete && (current_index <=? Z.of_nat (length url_list)) then
        ({| p_current_index := current_index; p_url_list := url_list;
            p_is_collection_complete := true;
            p_collection_progress := progress |}, self')
      else if negb complete then
        match progress with
        | Some _ =>
            ({| p_current_index := 1; p_url_list := url_list;
                p_is_collection_complete := false;
                p_collection_progress := progress |}, self')
        | None => (fresh_start, self')      (* ValueError, swallowed *)
        end
      else
        ({| p_current_index := 1; p_url_list := url_list;
            p_is_collection_complete := true;
            p_collection_progress := progress |}, self')
  | Missing => (fresh_start, self)
  | Torn => (fresh_start, self)             (* json.load raises *)
  end.

Definition save_data (self : crawler) (current_index : Z) (d : disk)
  : crawler * disk :=
  match all_posts_data self with
  | [] => (self, d)
  | _ :: _ =>
      let existing_data :=
        match output_file d with
        | Content l => l
        | _ => []
        end in
      let '(f, fs) := next_fault d in
      let '(out, ok) :=
        write_file (output_file d)
          (existing_data ++ all_posts_data self)%list f in
      if ok then
        let self' :=
          {| subreddit_url := subreddit_url self;
             max_posts := max_posts self;
             all_posts_data := [];
             total_crawled_count :=
               (total_crawled_count self + length (all_posts_data self))%nat
          |} in
        (self',
         update_progress_index self' current_index
           {| state_file := state_file d; output_file := out;
              faults := fs; log := log d |})
      else
        (self,
         {| state_file := state_file d; output_file := out;
            faults := fs; log := log d ++ [SaveDataFailed] |})
  end.

(** ** A process killed while it saves the checkpoint *)

(** Where the process can die around [open(path, 'w'); json.dump; close]:
    before the file is opened, after it was truncated and while the
    document is written, or after it was closed. *)
Inductive crash_point := BeforeOpen | DuringDump | AfterClose.

Definition interrupted_write {A} (old : file A) (new : A) (k : crash_point)
  : file A :=
  match k with
  | BeforeOpen => old
  | DuringDump => Torn
  | AfterClose => Content new
  end.

Definition with_state_file (d : disk) (sf : file state_data) : disk :=
  {| state_file := sf; output_file := output_file d;
     faults := faults d; log := log d |}.

(** The disk left by a process killed at [k] inside [save_progress]. *)
Definition save_progress_killed (self : crawler) (current_index : Z)
  (url_list : list candidate) (is_complete : bool)
  (progress : option collection_progress) (k : crash_point) (d : disk)
  : disk :=
  with_state_file d
    (interrupted_write (state_file d)
       {| current_post_index := current_index;
          collected_urls_with_source := url_list;
          total_collected := length url_list;
          sd_total_crawled_count := total_crawled_count self;
          sd_subreddit_name := _extract_subreddit_name (subreddit_url self);
          sd_max_posts := max_posts self;
          url_collection_progress := progress;
          is_collection_complete := is_complete |} k).

(** The disk left by a process killed at [k] inside the write of
    [update_progress_index]. *)
Definition update_progress_index_killed (self : crawler) (current_index : Z)
  (k : crash_point) (d : disk) : disk :=
  match state_file d with
  | Content sd =>
      with_state_file d
        (interrupted_write (state_file d)
           (with_index sd current_index (total_crawled_count self)) k)
  | _ => d
  end.

(* ===================================================================== *)
(** * Phase 1: [collect_post_urls]                                        *)
(* ===================================================================== *)

(** An item of the search API's [data] list; [None] is an absent key. *)
Record api_post := {
  api_id : option string;
  api_permalink : option string;
  api_created_utc : option Z
}.

(** What one [requests.get] of the loop gives.  [Reply code body]:
    a response with that status code; [body] is [None] when
    [response.json()] raises a decode error and otherwise holds
    [data.get("data", [])].  The other constructors are the exceptions the
    loop distinguishes. *)
Inductive api_response :=
| Reply (status_code : Z) (body : option (list api_post))
| RaisesTimeout
| RaisesRequestException
| RaisesOther
| RaisesKeyboardInterrupt.

(** The [params] of one [requests.get], without the two constant sort
    keys; [req_before] is [None] when the key is left out. *)
Record api_request := {
  req_subreddit : string;
  req_size : nat;
  req_before : option Z
}.

(** The local variables of [collect_post_urls] that live across
    iterations. *)
Record collect_state := {
  collected_urls : list candidate;
  before : option Z;
  collected_post_ids : gset string;
  consecutive_errors : nat;
  last_save_count : nat
}.

Inductive collect_result :=
| Returned (urls : list candidate)
| Interrupted                      (* KeyboardInterrupt re-raised *)
| Starved.                         (* the scripted answers ran out *)

(** The state before the first request. *)
Definition collect_init (existing_urls : list candidate)
  (progress : option collection_progress) : collect_state :=
  match progress with
  | Some cp =>
      {| collected_urls := existing_urls;
         before := cp_before_timestamp cp;
         collected_post_ids := cp_collected_post_ids cp;
         consecutive_errors := 0;
         last_save_count := length existing_urls |}
  | None =>
      {| collected_urls := existing_urls;
         before := None;
         collected_post_ids := ids_of_urls existing_urls;
         consecutive_errors := 0;
         last_save_count := length existing_urls |}
  end.

(** [for post in new_posts: ...] *)
Fixpoint process_posts (limit : nat) (new_posts : list api_post)
  (urls : list candidate) (ids : gset string)
  : list candidate * gset string :=
  match new_posts with
  | [] => (urls, ids)
  | post :: rest =>
      if (limit <=? length urls)%nat then (urls, ids)
      else if truthy_str (api_id post) && truthy_str (api_permalink post)
              && truthy_num (api_created_utc post)
      then
        let id := default EmptyString (api_id post) in
        if bool_decide (id ∈ ids) then process_posts limit rest urls ids
        else
          process_posts limit rest
            (urls ++ [ {| url := "https://www.reddit.com"
                                 ++ default EmptyString (api_permalink post);
                          created_utc := api_created_utc post |} ])%list
            ({[ id ]} ∪ ids)
      else process_posts limit rest urls ids
  end.

Inductive step :=
| Continue (st : collect_state) (d : disk)
| Break (st : collect_state) (d : disk)
| Raise (st : collect_state) (d : disk).

Definition with_errors (st : collect_state) (n : nat) : collect_state :=
  {| collected_urls := collected_urls st; before := before st;
     collected_post_ids := collected_post_ids st;
     consecutive_errors := n; last_save_count := last_save_count st |}.

(** An [except] clause of the loop: count the failure, [break] at the
    ceiling, otherwise [continue]. *)
Definition failed (ceiling : nat) (st : collect_state) (d : disk) : step :=
  let st' := with_errors st (consecutive_errors st + 1)%nat in
  if (ceiling <=? consecutive_errors st')%nat then Break st' d
  else Continue st' d.

(** One iteration of [while len(collected_urls) < self.max_posts]. *)
Definition collect_step (self : crawler) (r : api_response)
  (st : collect_state) (d : disk) : step :=
  match r with
  | RaisesKeyboardInterrupt =>
      Raise st
        (save_url_collection_progress self (collected_urls st) (before st)
           (max_posts self) d)
  | RaisesTimeout => failed 5 st d
  | RaisesRequestException => failed 5 st d
  | RaisesOther => failed 3 st d
  | Reply code body =>
      if negb (code =? 200) then failed 3 st d
      else
        match body with
        | None => failed 5 st d
        | Some [] => Break st d
        | Some new_posts =>
            let '(urls, ids) :=
              process_posts (max_posts self) new_posts
                (collected_urls st) (collected_post_ids st) in
            match last new_posts with
            | Some oldest =>
                match api_created_utc oldest with
                | Some t =>
                    let n := length urls in
                    if (50 <=? Z.of_nat n - Z.of_nat (last_save_count st))
                       || (n mod 250 =? 0)%nat
                    then
                      Continue
                        {| collected_urls := urls; before := Some t;
                           collected_post_ids := ids;
                           consecutive_errors := 0;
                           last_save_count := n |}
                        (save_url_collection_progress self urls (Some t)
                           (max_posts self) d)
                    else
                      Continue
                        {| collected_urls := urls; before := Some t;
                           collected_post_ids := ids;
                           consecutive_errors := 0;
                           last_save_count := last_save_count st |}
                        d
                | None =>                               (* KeyError *)
                    failed 3
                      {| collected_urls := urls; before := before st;
                         collected_post_ids := ids;
                         consecutive_errors := consecutive_errors st;
                         last_save_count := last_save_count st |}
                      d
                end
            | None => Break st d
            end
        end
  end.

(** The code after the loop: the final save and the truncated result. *)
Definition finish (self : crawler) (st : collect_state) (d : disk)
  : collect_result * collect_state * disk :=
  let n := length (collected_urls st) in
  (Returned (take (max_posts self) (collected_urls st)),
   st,
   if negb (n =? last_save_count st)%nat || (max_posts self <=? n)%nat
   then save_url_collection_progress self (collected_urls st) (before st)
          (max_posts self) d
   else d).

(** The request built at the head of an iteration. *)
Definition request_of (self : crawler) (subreddit_name : string)
  (st : collect_state) : api_request :=
  {| req_subreddit := subreddit_name;
     req_size :=
       Nat.min 100 (max_posts self - length (collected_urls st))%nat;
     req_before := if truthy_num (before st) then before st else None |}.

(** The upstream during one execution: what the API gives to the first
    request, to the second, and so on, each as a function of the request
    it receives. *)
Definition upstream := list (api_request -> api_response).

(** The loop; the n-th request is answered by the n-th element of the
    script. *)
Fixpoint collect_loop (self : crawler) (subreddit_name : string)
  (script : upstream) (st : collect_state) (d : disk)
  : collect_result * collect_state * disk :=
  if (length (collected_urls st) <? max_posts self)%nat then
    match script with
    | [] => (Starved, st, d)
    | answer :: script' =>
        match collect_step self (answer (request_of self subreddit_name st))
                st d with
        | Continue st' d' => collect_loop self subreddit_name script' st' d'
        | Break st' d' => finish self st' d'
        | Raise st' d' => (Interrupted, st', d')
        end
    end
  else finish self st d.

Definition collect_post_urls (self : crawler) (target_url : string)
  (existing_urls : list candidate) (progress : option collection_progress)
  (script : upstream) (d : disk) : collect_result * disk :=
  if contains "/comments/" target_url then
    (Returned [ {| url := target_url; created_utc := None |} ], d)
  else
    let name := _extract_subreddit_name target_url in
    if String.eqb name EmptyString || String.eqb name "unknown_subreddit"
    then (Returned [], logged d [SubredditUnknown])
    else
      let '(res, _, d') :=
        collect_loop self name script
          (collect_init existing_urls progress) d in
      (res, d').

(* ===================================================================== *)
(** * Phase 2 and the driver: [crawl_posts]                               *)
(* ===================================================================== *)

(** [fetch_post_json] swallows every [Exception] and returns [None];
    only a [KeyboardInterrupt] leaves it. *)
Inductive fetch_result :=
| FetchData (p : post_record)
| FetchNone
| FetchInterrupt.

(** What happens during one iteration of the fetch loop: the fetch, the
    [wait_for_timeout] after it, and the one of the [except] clause. *)
Record iteration := {
  fetched : fetch_result;
  delay_raises : bool;
  retry_delay_raises : bool
}.

Record environment := {
  api : upstream;
  init_browser_raises : bool;
  fetches : Z -> iteration           (* by 0-based index in the url list *)
}.

Record loop_state := {
  ls_self : crawler;
  ls_disk : disk;
  ls_current_index : Z;
  ls_consecutive_failures : nat
}.

Inductive loop_exit :=
| RangeExhausted         (* the [for] ran to the end of its range *)
| FailureCeiling         (* [break] on three consecutive failures *)
| KeyboardInterrupt
| EscapedException.      (* an [Exception] outside the inner [try] *)

(** [url_list[index]], negative indices counting from the end. *)
Definition py_index {A} (l : list A) (index : Z) : option A :=
  if 0 <=? index then l !! Z.to_nat index
  else if 0 <=? index + Z.of_nat (length l)
       then l !! Z.to_nat (index + Z.of_nat (length l))
       else None.

(** The inner [except Exception] clause. *)
Definition after_exception (it : iteration) (ls : loop_state)
  : option loop_exit * loop_state :=
  let ls' :=
    {| ls_self := ls_self ls; ls_disk := ls_disk ls;
       ls_current_index := ls_current_index ls;
       ls_consecutive_failures := (ls_consecutive_failures ls + 1)%nat |} in
  if (3 <=? ls_consecutive_failures ls')%nat then (Some FailureCeiling, ls')
  else if retry_delay_raises it then (Some EscapedException, ls')
  else (None, ls').

(** The delay that ends the [try] body. *)
Definition after_fetch (it : iteration) (ls : loop_state)
  : option loop_exit * loop_state :=
  if delay_raises it then after_exception it ls else (None, ls).

(** The body of [for index in range(current_index - 1, total_posts)],
    after [url_list[index]] was read.  [None]: go on with the next
    index. *)
Definition fetch_iteration (it : iteration) (index : Z) (ls : loop_state)
  : option loop_exit * loop_state :=
  let current_index := index + 1 in
  match fetched it with
  | FetchInterrupt =>
      (Some KeyboardInterrupt,
       {| ls_self := ls_self ls; ls_disk := ls_disk ls;
          ls_current_index := current_index;
          ls_consecutive_failures := ls_consecutive_failures ls |})
  | FetchData post_data =>
      let self1 :=
        {| subreddit_url := subreddit_url (ls_self ls);
           max_posts := max_posts (ls_self ls);
           all_posts_data := (all_posts_data (ls_self ls) ++ [post_data])%list;
           total_crawled_count := total_crawled_count (ls_self ls) |} in
      let '(self2, d2) :=
        if (length (all_posts_data self1) mod 10 =? 0)%nat
        then save_data self1 current_index (ls_disk ls)
        else (self1, ls_disk ls) in
      after_fetch it
        {| ls_self := self2; ls_disk := d2;
           ls_current_index := current_index;
           ls_consecutive_failures := 0 |}
  | FetchNone =>
      let failures := (ls_consecutive_failures ls + 1)%nat in
      let ls' :=
        {| ls_self := ls_self ls; ls_disk := ls_disk ls;
           ls_current_index := current_index;
           ls_consecutive_failures := failures |} in
      if (3 <=? failures)%nat then (Some FailureCeiling, ls')
      else after_fetch it ls'
  end.

(** [n] iterations of the [for] loop from [index] on. *)
Fixpoint fetch_loop (fetch : Z -> iteration) (url_list : list candidate)
  (n : nat) (index : Z) (ls : loop_state) : loop_exit * loop_state :=
  match n with
  | O => (RangeExhausted, ls)
  | S n' =>
      match py_index url_list index with
      | None => (EscapedException, ls)                  (* IndexError *)
      | Some _ =>
          match fetch_iteration (fetch index) index ls with
          | (None, ls') => fetch_loop fetch url_list n' (index + 1) ls'
          | (Some e, ls') => (e, ls')
          end
      end
  end.

Inductive run_exit :=
| CollectionInterrupted            (* KeyboardInterrupt during Phase 1 *)
| NoCandidates                     (* the early [return] *)
| ScriptExhausted                  (* Phase 1 still waiting for the API *)
| BrowserFailed                    (* [init_browser] raised *)
| LoopEnded (e : loop_exit).

Record run := {
  r_self : crawler;
  r_disk : disk;
  r_exit : run_exit;
  r_url_list : list candidate;
  r_current_index : Z;
  r_completed_normally : bool;
  r_state_file_removed : bool        (* [os.remove] was called *)
}.

(** The [finally] clause. *)
Definition finally (self : crawler) (d : disk) (e : run_exit)
  (url_list : list candidate) (current_index : Z)
  (completed_normally : bool) : run :=
  let '(self', d') := save_data self current_index d in
  {| r_self := self';
     r_disk := if completed_normally then with_state_file d' Missing else d';
     r_exit := e;
     r_url_list := url_list;
     r_current_index := current_index;
     r_completed_normally := completed_normally;
     r_state_file_removed := completed_normally |}.

(** From [init_browser] to the end of [crawl_posts]. *)
Definition fetch_phase (env : environment) (self : crawler) (d : disk)
  (url_list : list candidate) (current_index : Z) : run :=
  if init_browser_raises env
  then finally self d BrowserFailed url_list current_index false
  else
    let total_posts := Z.of_nat (length url_list) in
    let '(e, ls) :=
      fetch_loop (fetches env) url_list
        (Z.to_nat (total_posts - (current_index - 1))) (current_index - 1)
        {| ls_self := self; ls_disk := d;
           ls_current_index := current_index;
           ls_consecutive_failures := 0 |} in
    let completed_normally :=
      match e with
      | RangeExhausted | FailureCeiling =>
          total_posts <=? ls_current_index ls
      | KeyboardInterrupt | EscapedException => false
      end in
    finally (ls_self ls) (ls_disk ls) (LoopEnded e) url_list
      (ls_current_index ls) completed_normally.

(** The [elif not is_collection_complete] branch and what follows it. *)
Definition collect_phase (env : environment) (self : crawler) (d : disk)
  (existing_urls : list candidate) (progress : option collection_progress)
  (current_index : Z) : run :=
  match collect_post_urls self (subreddit_url self) existing_urls
          progress (api env) d with
  | (Interrupted, d1) =>
      finally self d1 CollectionInterrupted [] current_index false
  | (Starved, d1) =>
      {| r_self := self; r_disk := d1; r_exit := ScriptExhausted;
         r_url_list := []; r_current_index := current_index;
         r_completed_normally := false;
         r_state_file_removed := false |}
  | (Returned [], d1) =>
      finally self d1 NoCandidates [] current_index false
  | (Returned url_list, d1) =>
      fetch_phase env self (save_progress self 1 url_list false None d1)
        url_list 1
  end.

Definition crawl_posts (self : crawler) (env : environment) (d : disk)
  : run :=
  let '(p, self0) := load_progress self d in
  let current_index := p_current_index p in
  let existing_urls := p_url_list p in
  if p_is_collection_complete p && (1 <? current_index) then
    fetch_phase env self0 d existing_urls current_index
  else if negb (p_is_collection_complete p) then
    collect_phase env self0 d existing_urls (p_collection_progress p)
      current_index
  else fetch_phase env self0 d existing_urls current_index.

(* ===================================================================== *)
(** * Notions used in the statements                                      *)
(* ===================================================================== *)

(** The challenge check in the order the specification gives: the
    structured-data test first, then the selectors, then the keywords.
    Compared below with [_check_and_handle_captcha_or_login]. *)
Definition check_in_specified_order (str_lower : string -> string)
  (p : page) : verdict :=
  match pre_element p with
  | PreText (Some json_string) =>
      if has_post_fields json_string then Passed StructuredData
      else if scan_selectors p then Blocked BySelector
      else if scan_keywords str_lower (body_text p) then Blocked ByKeyword
      else Passed NothingFound
  | _ =>
      if scan_selectors p then Blocked BySelector
      else if scan_keywords str_lower (body_text p) then Blocked ByKeyword
      else Passed NothingFound
  end.

(** The state document with its two stored completeness flags replaced. *)
Definition with_flags (sd : state_data) (flag progress_flag : bool)
  : state_data :=
  {| current_post_index := current_post_index sd;
     collected_urls_with_source := collected_urls_with_source sd;
     total_collected := total_collected sd;
     sd_total_crawled_count := sd_total_crawled_count sd;
     sd_subreddit_name := sd_subreddit_name sd;
     sd_max_posts := sd_max_posts sd;
     url_collection_progress :=
       match url_collection_progress sd with
       | Some cp =>
           Some {| cp_collected_count := cp_collected_count cp;
                   cp_target_count := cp_target_count cp;
                   cp_latest_post_timestamp := cp_latest_post_timestamp cp;
                   cp_before_timestamp := cp_before_timestamp cp;
                   cp_collected_post_ids := cp_collected_post_ids cp;
                   cp_is_collection_complete := progress_flag |}
       | None => None
       end;
     is_collection_complete := flag |}.

(** The identifiers of the candidates, in order: what
    [_extract_post_id] finds in each URL. *)
Definition candidate_ids (urls : list candidate) : list string :=
  omap (fun c => _extract_post_id (url c)) urls.

(** The dedup invariant: the id set is the identifier projection of the
    candidates, and no identifier occurs twice among them. *)
Definition dedup_ok (urls : list candidate) (ids : gset string) : Prop :=
  ids = ids_of_urls urls /\ NoDup (candidate_ids urls).

(** The same for the copy in the state file. *)
Definition checkpoint_ok (d : disk) : Prop :=
  match state_file d with
  | Content sd =>
      match url_collection_progress sd with
      | Some cp =>
          cp_collected_post_ids cp =
            ids_of_urls (collected_urls_with_source sd)
      | None => True
      end
  | _ => True
  end.

(** An API item for which [_extract_post_id], applied to the URL that
    the collector builds from the permalink, gives back the item's [id].
    The permalinks [/r/<name>/comments/<id>/...] of the forum are of this
    kind, except in a subreddit that is itself named [comments]. *)
Definition permalink_carries_id (post : api_post) : bool :=
  match api_id post, api_permalink post with
  | Some i, Some permalink =>
      bool_decide
        (_extract_post_id ("https://www.reddit.com" ++ permalink) = Some i)
  | _, _ => true
  end.

Definition page_posts (r : api_response) : list api_post :=
  match r with
  | Reply _ (Some posts) => posts
  | _ => []
  end.

(** Every page that the upstream may deliver, whatever the request,
    holds such items only. *)
Definition consistent_script (script : upstream) : Prop :=
  Forall (fun answer : api_request -> api_response =>
            forall req,
              forallb permalink_carries_id (page_posts (answer req)) = true)
         script.

(** The test [if post_id and permalink and created_utc]. *)
Definition has_all_fields (post : api_post) : bool :=
  truthy_str (api_id post) && truthy_str (api_permalink post)
  && truthy_num (api_created_utc post).

(** How often the identifier [i] occurs among the candidates. *)
Definition occurrences (i : string) (urls : list candidate) : nat :=
  count_occ string_dec (candidate_ids urls) i.

(** The state a step of the loop leaves. *)
Definition step_state (s : step) : collect_state :=
  match s with
  | Continue st _ | Break st _ | Raise st _ => st
  end.

(** What a resumed run may start from. *)
Definition start_ok (existing_urls : list candidate)
  (progress : option collection_progress) : Prop :=
  NoDup (candidate_ids existing_urls) /\
  match progress with
  | Some cp => cp_collected_post_ids cp = ids_of_urls existing_urls
  | None => True
  end.

(** A target the collector pages through: not a single post, and with a
    subreddit name. *)
Definition listing_target (target_url : string) : bool :=
  negb (contains "/comments/" target_url)
  && negb (String.eqb (_extract_subreddit_name target_url) EmptyString)
  && negb (String.eqb (_extract_subreddit_name target_url)
             "unknown_subreddit").





(** An answer that does not look at the request. *)
Definition fixed (r : api_response) : api_request -> api_response :=
  fun _ => r.

Definition no_faults (d : disk) : disk :=
  {| state_file := state_file d; output_file := output_file d;
     faults := []; log := log d |}.




(** A collection interrupted after the answers [s1] and resumed, after
    a restart, on the answers [s2]; [None] when the restart finds the
    collection complete. *)
Definition split_run (self : crawler) (target_url : string)
  (s1 s2 : upstream) (d : disk) : option collect_result :=
  let first_run :=
    collect_post_urls self target_url [] None
      (s1 ++ [fixed RaisesKeyboardInterrupt])%list d in
  let p := (load_progress self first_run.2).1 in
  if p_is_collection_complete p then None
  else
    Some (collect_post_urls self target_url (p_url_list p)
            (p_collection_progress p) s2 first_run.2).1.

(** The ways [crawl_posts] ends before the fetch loop has run to its end
    or to the failure ceiling. *)
Definition early_exit (e : run_exit) : bool :=
  match e with
  | LoopEnded RangeExhausted | LoopEnded FailureCeiling => false
  | _ => true
  end.

Definition stored_index (d : disk) : option Z :=
  match state_file d with
  | Content sd => Some (current_post_index sd)
  | _ => None
  end.

(** What holds of a run whenever the state file is removed, and when it
    is kept. *)
Definition removal_justified (r : run) : Prop :=
  (r_state_file_removed r = true ->
     early_exit (r_exit r) = false /\
     Z.of_nat (length (r_url_list r)) <= r_current_index r /\
     state_file (r_disk r) = Missing) /\
  (early_exit (r_exit r) = true -> r_state_file_removed r = false) /\
  (r_exit r = LoopEnded FailureCeiling ->
     r_current_index r < Z.of_nat (length (r_url_list r)) ->
     r_state_file_removed r = false).

(** The index in the state file, when there is one, is at most [bound]. *)
Definition stored_at_most (d : disk) (bound : Z) : Prop :=
  forall i, stored_index d = Some i -> i <= bound.

(** The index in the state file has not decreased from [d] to [d']. *)
Definition index_not_decreased (d d' : disk) : Prop :=
  forall i i',
    stored_index d = Some i -> stored_index d' = Some i' -> i <= i'.

(* ===================================================================== *)
(** * Further parts of the crawler                                        *)
(* ===================================================================== *)

(** Every character of [s] satisfies [f]. *)
Fixpoint all_chars (f : ascii -> bool) (s : string) : bool :=
  match s with
  | EmptyString => true
  | String c s' => f c && all_chars f s'
  end.

(** ** The JSON endpoint of a post: the first lines of [fetch_post_json] *)

(** [post_url.split('?')[0]] *)
Fixpoint before_query (s : string) : string :=
  match s with
  | EmptyString => EmptyString
  | String c s' =>
      if Ascii.eqb c "?"%char then EmptyString
      else String c (before_query s')
  end.

(** [s.rstrip('/')] *)
Fixpoint rstrip_slash (s : string) : string :=
  match s with
  | EmptyString => EmptyString
  | String c s' =>
      match rstrip_slash s' with
      | EmptyString =>
          if Ascii.eqb c "/"%char then EmptyString
          else String c EmptyString
      | String c' r => String c (String c' r)
      end
  end.

(** [post_url.split('?')[0].rstrip('/') + ".json"] *)
Definition json_url (post_url : string) : string :=
  rstrip_slash (before_query post_url) ++ ".json".

(** ** [fetch_post_json] *)

(** The fields of [raw_data[0]['data']['children'][0]['data']] that end
    in a [post_record]; [None] is an absent key. *)
Record raw_post := {
  pi_url : option string;
  pi_title : option string
}.

(** What [json.loads] and the two subscript chains give on the text of
    the [pre] element: [None] where a chain raises. *)
Record listing := {
  post_info : option raw_post;
  comments_tree : option (list raw_comment)
}.

(** One visit of the endpoint: whether [page.goto] or the wait after it
    raises, the page the challenge check sees, whether the operator
    interrupts the wait of a blocked check, and the page shown after the
    reload that follows a blocked check. *)
Record visit := {
  goto_raises : bool;
  settle_raises : bool;
  landed : page;
  operator_interrupts : bool;
  reloaded : page
}.

Section FetchPostJson.

Variable strftime : Z -> option string.

(** [str.lower()], used by the challenge check. *)
Variable str_lower : string -> string.

(** [json.loads] followed by the subscript chains; [None] when the text
    is not JSON. *)
Variable json_loads : string -> option listing.

(** From [page.query_selector("pre")] to the end of the function. *)
Definition read_post (post_url : string) (p : page) : fetch_result :=
  match pre_element p with
  | PreMissing => FetchNone
  | PreText None => FetchNone
  | PreText (Some json_content) =>
      if String.eqb json_content EmptyString then FetchNone
      else
        match json_loads json_content with
        | Some {| post_info := Some info; comments_tree := Some tree |} =>
            FetchData
              {| post_id := _extract_post_id post_url;
                 post_url := default post_url (pi_url info);
                 post_title := default "N/A" (pi_title info);
                 post_comments := omap (_parse_comment strftime) tree |}
        | _ => FetchNone
        end
  end.

Definition fetch_post_json (post_url : string) (v : visit) : fetch_result :=
  if goto_raises v || settle_raises v then FetchNone
  else
    match _check_and_handle_captcha_or_login str_lower (landed v) with
    | Blocked _ =>
        if operator_interrupts v then FetchInterrupt
        else read_post post_url (reloaded v)
    | Passed _ => read_post post_url (landed v)
    end.

End FetchPostJson.

(** ** Views of the files *)

(** The records [save_data] reads back from the output file: none when
    the file is missing or cannot be parsed. *)
Definition records (f : file (list post_record)) : list post_record :=
  match f with
  | Content l => l
  | _ => []
  end.

(** The candidate list in the state file. *)
Definition stored_urls (d : disk) : option (list candidate) :=
  match state_file d with
  | Content sd => Some (collected_urls_with_source sd)
  | _ => None
  end.

(** The candidate [process_posts] builds from an item. *)
Definition candidate_of (post : api_post) : candidate :=
  {| url := "https://www.reddit.com"
            ++ default EmptyString (api_permalink post);
     created_utc := api_created_utc post |}.



(** An iteration whose fetch returns nothing and whose delay does not
    raise. *)
Definition plain_failure (it : iteration) : bool :=
  match fetched it with
  | FetchNone => negb (delay_raises it)
  | _ => false
  end.

(** The character class [[^?]]. *)
Definition not_question (c : ascii) : bool := negb (Ascii.eqb c "?"%char).

(** What one step of the loop keeps: the candidates collected so far as
    a prefix, the bound, the output file, and an index that is the one
    stored before, none, or 1. *)
Definition step_keeps (self : crawler) (st : collect_state) (d : disk)
  (st' : collect_state) (d' : disk) : Prop :=
  collected_urls st `prefix_of` collected_urls st' /\
  ((length (collected_urls st) <= max_posts self)%nat ->
   (length (collected_urls st') <= max_posts self)%nat) /\
  output_file d' = output_file d /\
  (stored_index d' = stored_index d \/ stored_index d' = None \/
   stored_index d' = Some 1).


(** [self.all_posts_data.append(post_data)] *)
Definition with_post (self : crawler) (post_data : post_record) : crawler :=
  {| subreddit_url := subreddit_url self;
     max_posts := max_posts self;
     all_posts_data := (all_posts_data self ++ [post_data])%list;
     total_crawled_count := total_crawled_count self |}.

(** Every record is accounted for: the writes succeed, the counter is the
    number of records in the output file, and the records [earlier] are
    still at the head of the file. *)
Definition accounted (earlier : list post_record) (self : crawler)
  (d : disk) : Prop :=
  faults d = [] /\
  length (records (output_file d)) = total_crawled_count self /\
  earlier `prefix_of` records (output_file d).

(** The state file holds the candidate list [kept], or no document. *)
Definition candidates_kept (kept : option (list candidate)) (d : disk)
  : Prop :=
  stored_urls d = kept \/ stored_urls d = None.


(* ===================================================================== *)
(** * Concrete inputs                                                     *)
(* ===================================================================== *)

Definition dogs : string := "https://www.reddit.com/r/dogs/".

Definition empty_disk : disk :=
  {| state_file := Missing; output_file := Missing;
     faults := []; log := [] |}.

(** A search item whose permalink carries its id. *)
Definition item (i : string) (t : Z) : api_post :=
  {| api_id := Some i;
     api_permalink := Some ("/r/dogs/comments/" ++ i ++ "/title/");
     api_created_utc := Some t |}.

(** A search item with id [i] whose permalink names another post [j]. *)
Definition odd_item (i j : string) (t : Z) : api_post :=
  {| api_id := Some i;
     api_permalink := Some ("/r/dogs/comments/" ++ j ++ "/title/");
     api_created_utc := Some t |}.

Definition cand (i : string) (t : Z) : candidate :=
  {| url := "https://www.reddit.com/r/dogs/comments/" ++ i ++ "/title/";
     created_utc := Some t |}.

Definition post (i : string) : post_record :=
  {| post_id := Some i;
     post_url := "https://www.reddit.com/r/dogs/comments/" ++ i ++ "/title/";
     post_title := "title";
     post_comments := [] |}.

Definition fetch_ok (i : string) : iteration :=
  {| fetched := FetchData (post i);
     delay_raises := false; retry_delay_raises := false |}.

Definition fetch_none : iteration :=
  {| fetched := FetchNone;
     delay_raises := false; retry_delay_raises := false |}.

Definition fetch_interrupted : iteration :=
  {| fetched := FetchInterrupt;
     delay_raises := false; retry_delay_raises := false |}.

(** Lower-casing of a text made of ASCII characters, where [str.lower()]
    turns the letters A-Z into a-z and keeps every other character.  It
    stands for [str_lower] in the closed examples only, whose pages hold
    ASCII text; the theorems hold for every [str_lower]. *)
Definition lower_ascii_char (c : ascii) : ascii :=
  let n := nat_of_ascii c in
  if ((65 <=? n)%nat && (n <=? 90)%nat) then ascii_of_nat (n + 32) else c.

Fixpoint lower_ascii (s : string) : string :=
  match s with
  | EmptyString => EmptyString
  | String c s' => String (lower_ascii_char c) (lower_ascii s')
  end.

(** A JSON page of the post endpoint on which a reCAPTCHA widget is
    visible. *)
Definition json_page_with_widget : page :=
  {| query_selector_all := fun sel =>
       if String.eqb sel ".g-recaptcha" then Elements [Some true]
       else Elements [];
     pre_element :=
       PreText (Some "[{'title': 't', 'author': 'a', 'selftext': 's'}]");
     body_text :=
       BodyText (Some "[{'title': 't', 'author': 'a', 'selftext': 's'}]") |}.

(** A text page asking to log in, without any widget. *)
Definition login_wall : page :=
  {| query_selector_all := fun _ => Elements [];
     pre_element := PreText (Some "Please Sign In to continue");
     body_text := BodyText (Some "Please Sign In to continue") |}.

(** A page asking to log in that has no [pre] element. *)
Definition login_page : page :=
  {| query_selector_all := fun _ => Elements [];
     pre_element := PreMissing;
     body_text := BodyText (Some "please login to continue") |}.

(** A verification page with a visible reCAPTCHA widget. *)
Definition widget_page : page :=
  {| query_selector_all := fun sel =>
       if String.eqb sel ".g-recaptcha" then Elements [Some true]
       else Elements [];
     pre_element := PreMissing;
     body_text := BodyText (Some "one moment") |}.

(** A JSON page of the post endpoint. *)
Definition json_page : page :=
  {| query_selector_all := fun _ => Elements [];
     pre_element :=
       PreText (Some "[{'title': 'login', 'author': 'a', 'selftext': 's'}]");
     body_text :=
       BodyText (Some "[{'title': 'login', 'author': 'a', 'selftext': 's'}]") |}.

(** The checkpoint of a collection stopped at two of ten candidates. *)
Definition collecting_checkpoint : state_data :=
  {| current_post_index := 1;
     collected_urls_with_source := [cand "a1" 300; cand "a2" 200];
     total_collected := 2;
     sd_total_crawled_count := 0;
     sd_subreddit_name := "dogs";
     sd_max_posts := 10;
     url_collection_progress :=
       Some {| cp_collected_count := 2;
               cp_target_count := 10;
               cp_latest_post_timestamp := Some 200;
               cp_before_timestamp := Some 200;
               cp_collected_post_ids := {[ "a1"; "a2" ]};
               cp_is_collection_complete := false |};
     is_collection_complete := false |}.

(** The checkpoint of a fetch phase at the second of three candidates,
    as [crawl_posts] and [update_progress_index] write it. *)
Definition fetching_checkpoint : state_data :=
  {| current_post_index := 2;
     collected_urls_with_source :=
       [cand "a1" 300; cand "a2" 200; cand "a3" 100];
     total_collected := 3;
     sd_total_crawled_count := 1;
     sd_subreddit_name := "dogs";
     sd_max_posts := 3;
     url_collection_progress := None;
     is_collection_complete := false |}.

Definition disk_with (sd : state_data) : disk :=
  {| state_file := Content sd; output_file := Missing;
     faults := []; log := [] |}.

Definition quiet_environment : environment :=
  {| api := []; init_browser_raises := false;
     fetches := fun _ => fetch_none |}.

(** Three posts upstream, five wanted: Phase 1 ends on the empty page
    with a list shorter than [max_posts]. *)
Definition short_upstream : upstream :=
  [ fixed (Reply 200 (Some [item "a1" 300; item "a2" 200; item "a3" 100]));
    fixed (Reply 200 (Some [])) ].

(** An archive that holds [posts], newest first, and answers a request
    with the posts older than its [before], at most [size] of them and
    at most [page_size]. *)
Definition serve (page_size : nat) (posts : list api_post)
  : api_request -> api_response :=
  fun req =>
    Reply 200
      (Some
         (take (Nat.min page_size (req_size req))
            (List.filter
               (fun post =>
                  match req_before req, api_created_utc post with
                  | Some b, Some t => t <? b
                  | _, _ => true
                  end)
               posts))).

Definition dogs_archive : api_request -> api_response :=
  serve 2 [item "a1" 300; item "a2" 200; item "a3" 100].

(** The first post is fetched, the run is interrupted during the
    second. *)
Definition interrupted_at_second : environment :=
  {| api := short_upstream; init_browser_raises := false;
     fetches := fun i => if i =? 0 then fetch_ok "a1" else fetch_interrupted |}.

(** The run is interrupted during the first fetch. *)
Definition interrupted_at_first : environment :=
  {| api := short_upstream; init_browser_raises := false;
     fetches := fun _ => fetch_interrupted |}.

(** Every fetch succeeds. *)
Definition all_fetched : environment :=
  {| api := short_upstream; init_browser_raises := false;
     fetches := fun i =>
       if i =? 0 then fetch_ok "a1"
       else if i =? 1 then fetch_ok "a2" else fetch_ok "a3" |}.

(** Every fetch fails. *)
Definition none_fetched (script : upstream) : environment :=
  {| api := script; init_browser_raises := false;
     fetches := fun _ => fetch_none |}.
(* ===================================================================== *)
(** * Properties of the comment parser                                    *)
(* ===================================================================== *)

(** Induction over a comment forest: the children of a node are covered
    by the hypothesis. *)
Lemma raw_comment_forest_ind (P : raw_comment -> Prop) :
  (forall kind data, P (RawComment kind data None)) ->
  (forall kind data children,
      Forall P children -> P (RawComment kind data (Some children))) ->
  forall c, P c.
Proof.
  intros Hleaf Hnode. fix IH 1.
  intros [kind data [children|]]; [|apply Hleaf].
  apply Hnode. induction children as [|ch children IHc]; constructor.
  - apply IH.
  - apply IHc.
Qed.

Section CommentTreeFacts.

Variable strftime : Z -> option string.

Local Abbreviation parse := (_parse_comment strftime).

(** The inner loop of [_parse_comment] keeps the children that parse. *)
Lemma parse_comment_unfold kind data replies_raw :
  parse (RawComment kind data replies_raw) =
    if is_more (RawComment kind data replies_raw) then None
    else
      let parsed := omap parse (default [] replies_raw) in
      Some {| author := default "[Deleted]" (rf_author data);
              text := default "[无文本]" (rf_body data);
              score := default 0 (rf_score data);
              created_time :=
                _convert_time strftime (default 0 (rf_created_utc data));
              replies := parsed;
              reply_count := length parsed |}.
Proof.
  unfold is_more; simpl.
  destruct (match kind with Some k => String.eqb k "more" | None => false end);
    [reflexivity|].
  destruct replies_raw as [children|]; [|reflexivity].
  simpl. do 2 f_equal.
  all: induction children as [|ch children IHc]; simpl; [reflexivity|];
    destruct (parse ch); simpl; congruence.
Qed.

Lemma parse_more c : is_more c = true -> parse c = None.
Proof.
  destruct c as [kind data rs]. rewrite parse_comment_unfold.
  intros ->. reflexivity.
Qed.

Lemma parse_children_reconstruct children :
  Forall (fun ch => is_more ch = false ->
                    exists p, parse ch = Some p /\ reconstructs ch p)
         children ->
  Forall2 reconstructs
    (List.filter (fun ch => negb (is_more ch)) children)
    (omap parse children).
Proof.
  induction 1 as [|ch children Hch _ IH]; simpl; [constructor|].
  destruct (is_more ch) eqn:Hm; simpl.
  - rewrite (parse_more ch Hm). exact IH.
  - destruct (Hch eq_refl) as (p & -> & Hp). constructor; assumption.
Qed.

Lemma parse_comment_some c :
  is_more c = false -> exists p, parse c = Some p /\ reconstructs c p.
Proof.
  induction c as [kind data|kind data children IH]
    using raw_comment_forest_ind; intros Hm;
    rewrite parse_comment_unfold, Hm; simpl;
    eexists; split; try reflexivity; constructor; simpl; try assumption.
  - constructor.
  - reflexivity.
  - apply parse_children_reconstruct, IH.
  - unfold raw_children; simpl.
    symmetry. eapply Forall2_length, parse_children_reconstruct, IH.
Qed.

(** C8. [_parse_comment] is total.  A node tagged "more" parses to
    nothing; any other node parses to a comment that reconstructs it:
    at every depth the placeholders are left out, the other children are
    kept in order, and [reply_count] is the number of kept children, which
    is the length of [replies].  A node whose replies field is absent or
    is not a container gets no replies and the count 0. *)
Theorem parse_comment_tree (c : raw_comment) :
  (is_more c = true -> parse c = None) /\
  (is_more c = false ->
     exists p, parse c = Some p /\ reconstructs c p /\
       replies p = omap parse (raw_children c) /\
       reply_count p = length (replies p) /\
       reply_count p =
         length (List.filter (fun ch => negb (is_more ch)) (raw_children c)) /\
       (raw_replies c = None -> replies p = [] /\ reply_count p = 0%nat)).
Proof.
  split; [apply parse_more|].
  intros Hm. destruct (parse_comment_some c Hm) as (p & Hp & Hrec).
  exists p. split; [exact Hp|]. split; [exact Hrec|].
  destruct c as [kind data rs]. rewrite parse_comment_unfold, Hm in Hp.
  injection Hp as <-. simpl.
  inversion Hrec as [? ? _ Hch Hcount]; subst. simpl in *.
  split; [reflexivity|]. split; [reflexivity|]. split; [assumption|].
  intros ->. split; reflexivity.
Qed.

End CommentTreeFacts.

(** A forest with nested replies and a "more" stub at depth 2. *)
Example parse_comment_fixture :
  let fields a := {| rf_author := Some a; rf_body := None;
                     rf_score := Some 1; rf_created_utc := None |} in
  let leaf a := RawComment (Some "t1") (fields a) None in
  let more := RawComment (Some "more") (fields "stub") (Some []) in
  let top :=
    RawComment (Some "t1") (fields "top")
      (Some [ RawComment (Some "t1") (fields "mid")
                (Some [leaf "x"; more; leaf "y"]);
              leaf "z" ]) in
  match _parse_comment (fun _ => None) top with
  | Some p =>
      reply_count p = 2%nat /\
      map author (replies p) = ["mid"; "z"] /\
      map reply_count (replies p) = [2%nat; 0%nat] /\
      map (fun r => map author (replies r)) (replies p) = [["x"; "y"]; []]
  | None => False
  end.
Proof. vm_compute. repeat split. Qed.

(* ===================================================================== *)
(** * Properties of the challenge check                                   *)
(* ===================================================================== *)

(** The keyword scan finds something exactly when the body has a
    non-empty text whose lower-cased form holds one of the keywords. *)
Lemma scan_keywords_true_iff (str_lower : string -> string)
  (b : body_probe) :
  scan_keywords str_lower b = true <->
  exists page_text keyword,
    b = BodyText (Some page_text) /\ page_text <> EmptyString /\
    keyword ∈ captcha_keywords /\
    contains keyword (str_lower page_text) = true.
Proof.
  unfold scan_keywords. split.
  - destruct b as [|[page_text|]]; try discriminate.
    intros H. apply andb_prop in H as [Hne Hk].
    apply existsb_exists in Hk as (keyword & Hin & Hc).
    exists page_text, keyword. split; [reflexivity|].
    split; [apply String.eqb_neq, negb_true_iff, Hne|].
    split; [apply list_elem_of_In, Hin|exact Hc].
  - intros (page_text & keyword & -> & Hne & Hin & Hc).
    apply andb_true_intro. split.
    + apply negb_true_iff, String.eqb_neq, Hne.
    + apply existsb_exists. exists keyword.
      split; [apply list_elem_of_In, Hin|exact Hc].
Qed.

Lemma check_blocked_iff (str_lower : string -> string) (p : page) :
  (exists src, _check_and_handle_captcha_or_login str_lower p = Blocked src)
  <->
  scan_selectors p = true \/
  exists s, pre_element p = PreText (Some s) /\
            has_post_fields s = false /\
            scan_keywords str_lower (body_text p) = true.
Proof.
  unfold _check_and_handle_captcha_or_login.
  destruct (scan_selectors p); [split; eauto|].
  destruct (pre_element p) as [|[s|]].
  - split; [intros [? ?]; discriminate|].
    intros [?|(? & ? & _)]; discriminate.
  - destruct (has_post_fields s) eqn:Hf;
      [|destruct (scan_keywords str_lower (body_text p)) eqn:Hk].
    + split; [intros [? ?]; discriminate|].
      intros [?|(s' & Hs & Hf' & _)]; [discriminate|]. congruence.
    + split; eauto 6.
    + split; [intros [? ?]; discriminate|].
      intros [?|(s' & Hs & _ & ?)]; discriminate.
  - split; [intros [? ?]; discriminate|].
    intros [?|(? & ? & _)]; discriminate.
Qed.

(** C9, in the order of the code, for whatever [str.lower()] computes.
    The selectors are scanned first, and a visible match blocks whatever
    the page holds.  Only without such a match, and on a page whose [pre]
    element has a text, is that text tested for the post's key fields,
    and a match there ends the check with no challenge, the body text
    unread.  Only otherwise, on such a page, are the keywords searched in
    the lower-cased body text, and a match blocks: the check then blocks
    exactly when the body has a non-empty text whose lower-cased form
    holds one of the fixed keywords. *)
Theorem challenge_check_order (str_lower : string -> string) (p : page) :
  (scan_selectors p = true ->
     _check_and_handle_captcha_or_login str_lower p = Blocked BySelector) /\
  (scan_selectors p = false ->
     forall s, pre_element p = PreText (Some s) ->
       (has_post_fields s = true ->
          _check_and_handle_captcha_or_login str_lower p
          = Passed StructuredData) /\
       (has_post_fields s = false ->
          _check_and_handle_captcha_or_login str_lower p =
            (if scan_keywords str_lower (body_text p) then Blocked ByKeyword
             else Passed NothingFound) /\
          (_check_and_handle_captcha_or_login str_lower p = Blocked ByKeyword
           <->
           exists page_text keyword,
             body_text p = BodyText (Some page_text) /\
             page_text <> EmptyString /\
             keyword ∈ captcha_keywords /\
             contains keyword (str_lower page_text) = true))).
Proof.
  split; unfold _check_and_handle_captcha_or_login.
  - intros ->. reflexivity.
  - intros -> s ->. split; intros ->; [reflexivity|].
    split; [reflexivity|].
    rewrite <- scan_keywords_true_iff.
    destruct (scan_keywords str_lower (body_text p));
      split; congruence.
Qed.

(** The three outcomes on concrete pages, for a [str.lower()] that
    lower-cases the text of the login wall as Python does. *)
Example challenge_check_examples (str_lower : string -> string) :
  str_lower "Please Sign In to continue" = "please sign in to continue" ->
  _check_and_handle_captcha_or_login str_lower json_page
  = Passed StructuredData /\
  _check_and_handle_captcha_or_login str_lower login_wall
  = Blocked ByKeyword /\
  _check_and_handle_captcha_or_login str_lower json_page_with_widget
  = Blocked BySelector.
Proof.
  intros Hlower. split; [reflexivity|]. split; [|reflexivity].
  unfold _check_and_handle_captcha_or_login, login_wall, scan_keywords.
  cbn [pre_element body_text]. rewrite Hlower. vm_compute. reflexivity.
Qed.

(** C9 as stated fails in two ways.  On a page that holds the post's key
    fields and shows a reCAPTCHA widget, the stated order ends with no
    challenge, and the code blocks.  On a page without a [pre] element
    that asks to log in, the stated order reaches the keywords and
    blocks; in the code reading the text of the missing element raises,
    the handler logs the error and the check returns, the keywords
    unread. *)
Lemma challenge_order_counterexample :
  (pre_element json_page_with_widget
     = PreText (Some "[{'title': 't', 'author': 'a', 'selftext': 's'}]") /\
   has_post_fields "[{'title': 't', 'author': 'a', 'selftext': 's'}]"
     = true /\
   check_in_specified_order lower_ascii json_page_with_widget
     = Passed StructuredData /\
   _check_and_handle_captcha_or_login lower_ascii json_page_with_widget
     = Blocked BySelector) /\
  (pre_element login_page = PreMissing /\
   scan_selectors login_page = false /\
   body_text login_page = BodyText (Some "please login to continue") /\
   contains "login" "please login to continue" = true /\
   check_in_specified_order lower_ascii login_page = Blocked ByKeyword /\
   _check_and_handle_captcha_or_login lower_ascii login_page
     = Passed CheckRaised).
Proof. vm_compute. repeat split. Qed.

(* ===================================================================== *)
(** * Properties of the checkpoint store                                  *)
(* ===================================================================== *)

Lemma write_state_no_fault d doc on_failure :
  faults d = [] ->
  write_state d doc on_failure =
    {| state_file := Content doc; output_file := output_file d;
       faults := []; log := log d |}.
Proof. unfold write_state, next_fault. intros ->. reflexivity. Qed.


Lemma load_progress_state_file self d d' :
  state_file d = state_file d' -> load_progress self d = load_progress self d'.
Proof. unfold load_progress. intros ->. reflexivity. Qed.

Lemma load_progress_complete self d sd :
  state_file d = Content sd ->
  p_is_collection_complete (load_progress self d).1 =
    (max_posts self <=? length (collected_urls_with_source sd))%nat.
Proof.
  unfold load_progress. intros ->.
  destruct (max_posts self <=? _)%nat; simpl.
  - destruct (_ <=? _); reflexivity.
  - destruct (url_collection_progress sd); reflexivity.
Qed.




(** C6, as the code writes the file.  The state file is rewritten in
    place.  After a process killed inside [save_progress] or inside the
    write of [update_progress_index], [load_progress] gives what it gave
    before the save, or what it gives after the completed save, or, when
    the process died while the document was being written, a fresh start:
    a partial document is never taken for a checkpoint, and the previous
    one is gone. *)
Theorem killed_save_observations
  (self restarted : crawler) (d : disk) (k : crash_point) :
  (forall current_index url_list flag progress,
     let seen :=
       load_progress restarted
         (save_progress_killed self current_index url_list flag progress k d)
     in
     (seen = load_progress restarted d \/
      seen = load_progress restarted
               (save_progress self current_index url_list flag progress
                  (no_faults d)) \/
      seen = (fresh_start, restarted)) /\
     (k = DuringDump -> seen = (fresh_start, restarted))) /\
  (forall current_index,
     let seen :=
       load_progress restarted
         (update_progress_index_killed self current_index k d) in
     (seen = load_progress restarted d \/
      seen = load_progress restarted
               (update_progress_index self current_index (no_faults d)) \/
      seen = (fresh_start, restarted)) /\
     (k = DuringDump -> is_Some (match state_file d with
                                 | Content sd => Some sd
                                 | _ => None
                                 end) ->
      seen = (fresh_start, restarted))).
Proof.
  split.
  - intros current_index url_list flag progress seen. subst seen. split.
    + destruct k.
      * left. apply load_progress_state_file. reflexivity.
      * right; right. reflexivity.
      * right; left. apply load_progress_state_file.
        unfold save_progress. rewrite write_state_no_fault; reflexivity.
    + intros ->. reflexivity.
  - intros current_index seen. subst seen.
    unfold update_progress_index_killed, update_progress_index.
    destruct (state_file d) as [|sd|] eqn:Hsf; simpl.
    + split; [left; reflexivity|]. intros _ [? ?]; discriminate.
    + split.
      * destruct k.
        -- left. apply load_progress_state_file. simpl. congruence.
        -- right; right. reflexivity.
        -- right; left. apply load_progress_state_file.
           simpl. rewrite Hsf. rewrite write_state_no_fault; reflexivity.
      * intros -> _. reflexivity.
    + split; [left; reflexivity|]. intros _ [? ?]; discriminate.
Qed.

(** C6 as stated fails: the process dies while [update_progress_index]
    rewrites a fetch-phase checkpoint; the next run finds neither the
    previous checkpoint nor the new one, and starts afresh. *)
Lemma killed_save_counterexample :
  let self := new_crawler dogs 3 in
  let d := disk_with fetching_checkpoint in
  let seen :=
    load_progress self (update_progress_index_killed self 3 DuringDump d) in
  p_current_index (load_progress self d).1 = 2 /\
  p_current_index (load_progress self (update_progress_index self 3 d)).1 = 3 /\
  seen = (fresh_start, self) /\
  seen <> load_progress self d /\
  seen <> load_progress self (update_progress_index self 3 d).
Proof. vm_compute. repeat split; discriminate. Qed.

(** C10, with the bound the second consequence needs.  [load_progress]
    reports the collection complete exactly when the stored list has at
    least [max_posts] entries of the crawler that loads it; neither stored
    flag changes what it returns to the driver or the state Phase 1
    starts from.  A checkpoint written under a smaller [max_posts] sends
    [crawl_posts] to Phase 1; a [max_posts] of at most the number of
    stored candidates sends it to Phase 2. *)
Theorem load_progress_recomputes_completeness
  (self : crawler) (d : disk) (sd : state_data) :
  state_file d = Content sd ->
  let n := length (collected_urls_with_source sd) in
  let p := (load_progress self d).1 in
  let self0 := (load_progress self d).2 in
  (forall flag progress_flag,
     let q :=
       load_progress self
         (with_state_file d (Content (with_flags sd flag progress_flag))) in
     p_current_index q.1 = p_current_index p /\
     p_url_list q.1 = p_url_list p /\
     p_is_collection_complete q.1 = p_is_collection_complete p /\
     q.2 = self0 /\
     collect_init (p_url_list q.1) (p_collection_progress q.1) =
       collect_init (p_url_list p) (p_collection_progress p)) /\
  p_is_collection_complete p = (max_posts self <=? n)%nat /\
  ((n <= sd_max_posts sd)%nat -> (sd_max_posts sd < max_posts self)%nat ->
     forall env,
       crawl_posts self env d =
         collect_phase env self0 d (p_url_list p)
           (p_collection_progress p) 1) /\
  ((max_posts self <= n)%nat ->
     forall env,
       crawl_posts self env d =
         fetch_phase env self0 d (collected_urls_with_source sd)
           (if current_post_index sd <=? Z.of_nat n
            then current_post_index sd else 1)).
Proof.
  intros Hsf n p self0. subst n p self0.
  split; [|split; [apply load_progress_complete, Hsf|split]].
  - intros flag pflag. unfold load_progress; simpl. rewrite Hsf. simpl.
    destruct (max_posts self <=? _)%nat; simpl.
    + destruct (_ <=? _); simpl; repeat split;
        destruct (url_collection_progress sd); reflexivity.
    + destruct (url_collection_progress sd); simpl; repeat split.
  - intros Hn Hlt env. unfold crawl_posts, load_progress. rewrite Hsf.
    replace (max_posts self <=? _)%nat with false
      by (symmetry; apply Nat.leb_gt; lia).
    simpl. destruct (url_collection_progress sd); reflexivity.
  - intros Hle env. unfold crawl_posts, load_progress. rewrite Hsf.
    replace (max_posts self <=? _)%nat with true
      by (symmetry; apply Nat.leb_le; lia).
    simpl. destruct (current_post_index sd <=? _) eqn:Hidx; simpl.
    + destruct (1 <? current_post_index sd); reflexivity.
    + reflexivity.
Qed.

Lemma load_progress_recomputes_completeness_witness :
  p_is_collection_complete
    (load_progress (new_crawler dogs 2) (disk_with collecting_checkpoint)).1
  = true /\
  crawl_posts (new_crawler dogs 2) quiet_environment
    (disk_with collecting_checkpoint)
  = fetch_phase quiet_environment
      (load_progress (new_crawler dogs 2) (disk_with collecting_checkpoint)).2
      (disk_with collecting_checkpoint) [cand "a1" 300; cand "a2" 200] 1.
Proof.
  pose proof (load_progress_recomputes_completeness (new_crawler dogs 2)
                (disk_with collecting_checkpoint) collecting_checkpoint
                eq_refl) as (_ & Hc & _ & Hfetch).
  split.
  - rewrite Hc. reflexivity.
  - apply (Hfetch (le_n 2)).
Defined.

(** C10 as stated fails for a smaller [max_posts] that still exceeds the
    number of stored candidates: two candidates collected of ten, loaded
    with [max_posts = 5], are taken for an incomplete collection again. *)
Lemma smaller_max_posts_counterexample :
  let self := new_crawler dogs 5 in
  let d := disk_with collecting_checkpoint in
  (max_posts self < sd_max_posts collecting_checkpoint)%nat /\
  is_collection_complete collecting_checkpoint = false /\
  p_is_collection_complete (load_progress self d).1 = false /\
  crawl_posts self quiet_environment d =
    collect_phase quiet_environment (load_progress self d).2 d
      [cand "a1" 300; cand "a2" 200]
      (url_collection_progress collecting_checkpoint) 1.
Proof. vm_compute. repeat split; lia. Qed.

(* ===================================================================== *)
(** * The loop of the collector: unfolding and what every step keeps      *)
(* ===================================================================== *)

Lemma collect_loop_nil self name st d :
  collect_loop self name [] st d =
    if (length (collected_urls st) <? max_posts self)%nat
    then (Starved, st, d) else finish self st d.
Proof. reflexivity. Qed.

Lemma collect_loop_cons self name (answer : api_request -> api_response)
  script st d :
  collect_loop self name (answer :: script) st d =
    if (length (collected_urls st) <? max_posts self)%nat
    then match collect_step self (answer (request_of self name st)) st d with
         | Continue st' d' => collect_loop self name script st' d'
         | Break st' d' => finish self st' d'
         | Raise st' d' => (Interrupted, st', d')
         end
    else finish self st d.
Proof. reflexivity. Qed.

Lemma process_posts_cons limit post posts urls ids :
  process_posts limit (post :: posts) urls ids =
    if (limit <=? length urls)%nat then (urls, ids)
    else if has_all_fields post then
      if bool_decide (default EmptyString (api_id post) ∈ ids)
      then process_posts limit posts urls ids
      else process_posts limit posts (urls ++ [candidate_of post])%list
             ({[ default EmptyString (api_id post) ]} ∪ ids)
    else process_posts limit posts urls ids.
Proof. reflexivity. Qed.

Lemma process_posts_grows (limit : nat) (posts : list api_post)
  (urls : list candidate) (ids : gset string) :
  exists new,
    (process_posts limit posts urls ids).1 = (urls ++ new)%list /\
    new `sublist_of` map candidate_of (List.filter has_all_fields posts) /\
    ((length urls <= limit)%nat ->
     (length (process_posts limit posts urls ids).1 <= limit)%nat) /\
    ids ⊆ (process_posts limit posts urls ids).2.
Proof.
  revert urls ids. induction posts as [|post posts IH]; intros urls ids.
  - exists []. simpl. rewrite app_nil_r.
    repeat split; auto using sublist_nil_l.
  - rewrite process_posts_cons. cbn [List.filter].
    destruct (limit <=? length urls)%nat eqn:Hfull.
    + exists []. simpl. rewrite app_nil_r.
      repeat split; auto using sublist_nil_l.
    + destruct (has_all_fields post) eqn:Hfields.
      * case_bool_decide as Hin.
        -- destruct (IH urls ids) as (new & H1 & H2 & H3 & H4).
           exists new. repeat split; auto.
           cbn [map]. apply sublist_cons, H2.
        -- destruct (IH (urls ++ [candidate_of post])%list
                       ({[default EmptyString (api_id post)]} ∪ ids))
             as (new & H1 & H2 & H3 & H4).
           exists (candidate_of post :: new).
           rewrite H1, <- app_assoc.
           split; [reflexivity|].
           split; [cbn [map]; apply sublist_skip, H2|].
           split.
           ++ intros Hlen. rewrite H1, <- app_assoc in H3. apply H3.
              rewrite length_app. simpl. apply Nat.leb_gt in Hfull. lia.
           ++ set_solver.
      * destruct (IH urls ids) as (new & H1 & H2 & H3 & H4).
        exists new. repeat split; auto.
Qed.

Lemma save_url_collection_progress_files self urls b target d :
  let d' := save_url_collection_progress self urls b target d in
  output_file d' = output_file d /\
  (stored_index d' = stored_index d \/ stored_index d' = None \/
   stored_index d' = Some 1).
Proof.
  unfold save_url_collection_progress, save_progress, write_state,
    next_fault, stored_index.
  destruct (faults d) as [|[| |] fs]; simpl; auto.
Qed.

Lemma step_keeps_refl self st d : step_keeps self st d st d.
Proof. unfold step_keeps. repeat split; auto. Qed.

Lemma step_keeps_trans self st1 d1 st2 d2 st3 d3 :
  step_keeps self st1 d1 st2 d2 -> step_keeps self st2 d2 st3 d3 ->
  step_keeps self st1 d1 st3 d3.
Proof.
  intros (Hp & Hb & Ho & Hi) (Hp' & Hb' & Ho' & Hi').
  unfold step_keeps. split; [etrans; eassumption|].
  split; [auto|]. split; [congruence|].
  destruct Hi' as [Hi'|[Hi'|Hi']]; rewrite Hi'; auto.
Qed.

Lemma failed_keeps self ceiling st d :
  match failed ceiling st d with
  | Continue st' d' | Break st' d' | Raise st' d' =>
      step_keeps self st d st' d'
  end.
Proof.
  unfold failed, step_keeps.
  destruct (ceiling <=? _)%nat; simpl; repeat split; auto.
Qed.

Lemma collect_step_keeps self r st d :
  match collect_step self r st d with
  | Continue st' d' | Break st' d' | Raise st' d' =>
      step_keeps self st d st' d'
  end.
Proof.
  unfold collect_step.
  destruct r as [code body| | | |]; try apply failed_keeps.
  - destruct (negb (code =? 200)); [apply failed_keeps|].
    destruct body as [[|post0 posts]|];
      [apply step_keeps_refl| |apply failed_keeps].
    destruct (process_posts_grows (max_posts self) (post0 :: posts)
                (collected_urls st) (collected_post_ids st))
      as (new & Hnew & _ & Hbound & _).
    destruct (process_posts _ (post0 :: posts) _ _) as [urls ids].
    simpl in Hnew, Hbound.
    assert (Hkeep : forall st' d',
               collected_urls st' = urls ->
               output_file d' = output_file d ->
               (stored_index d' = stored_index d \/ stored_index d' = None
                \/ stored_index d' = Some 1) ->
               step_keeps self st d st' d').
    { intros st' d' Hu Ho Hi. unfold step_keeps. rewrite Hu.
      split; [rewrite Hnew; apply prefix_app_r; reflexivity|]. auto. }
    destruct (last (post0 :: posts)) as [oldest|];
      [|apply step_keeps_refl].
    destruct (api_created_utc oldest) as [t|].
    + destruct (_ || _); apply Hkeep; auto;
        apply save_url_collection_progress_files.
    + match goal with
      | |- match failed ?c ?s1 ?d1 with _ => _ end =>
          pose proof (failed_keeps self c s1 d1) as Hf;
          destruct (failed c s1 d1) as [st' d'|st' d'|st' d'];
          (eapply step_keeps_trans; [|exact Hf]); apply Hkeep; auto
      end.
  - unfold step_keeps. split; [reflexivity|]. split; [auto|].
    apply save_url_collection_progress_files.
Qed.

Lemma finish_keeps self st d :
  step_keeps self st d (finish self st d).1.2 (finish self st d).2.
Proof.
  unfold finish; simpl. destruct (_ || _); [|apply step_keeps_refl].
  unfold step_keeps. split; [reflexivity|]. split; [auto|].
  apply save_url_collection_progress_files.
Qed.

Lemma collect_loop_keeps self name script :
  forall st d,
    step_keeps self st d (collect_loop self name script st d).1.2
      (collect_loop self name script st d).2.
Proof.
  induction script as [|r script IH]; intros st d.
  - rewrite collect_loop_nil.
    destruct (_ <? _)%nat; [apply step_keeps_refl|apply finish_keeps].
  - rewrite collect_loop_cons. destruct (_ <? _)%nat; [|apply finish_keeps].
    pose proof (collect_step_keeps self (r (request_of self name st)) st d)
      as Hstep.
    destruct (collect_step self (r (request_of self name st)) st d) as [st' d'|st' d'|st' d'].
    + eapply step_keeps_trans; [exact Hstep|apply IH].
    + eapply step_keeps_trans; [exact Hstep|apply finish_keeps].
    + exact Hstep.
Qed.

Lemma collect_loop_returned self name script :
  forall st d urls,
    (collect_loop self name script st d).1.1 = Returned urls ->
    urls = take (max_posts self)
             (collected_urls (collect_loop self name script st d).1.2).
Proof.
  induction script as [|r script IH]; intros st d urls.
  - rewrite collect_loop_nil.
    destruct (_ <? _)%nat; [discriminate|]. intros [= <-]. reflexivity.
  - rewrite collect_loop_cons.
    destruct (_ <? _)%nat; [|intros [= <-]; reflexivity].
    destruct (collect_step self (r (request_of self name st)) st d) as [st' d'|st' d'|st' d'].
    + apply IH.
    + intros [= <-]. reflexivity.
    + discriminate.
Qed.

Lemma take_prefix_mono {A} n (l1 l2 : list A) :
  l1 `prefix_of` l2 -> take n l1 `prefix_of` take n l2.
Proof.
  intros [k ->]. rewrite take_app. apply prefix_app_r. reflexivity.
Qed.


(* ===================================================================== *)
(** * Properties of the candidate collector                               *)
(* ===================================================================== *)

(** ** The failure ceiling *)











(** Five timeouts in a row, and a mixed run that reaches a ceiling. *)
Example ceiling_examples :
  (collect_post_urls (new_crawler dogs 5) dogs [] None
     (map fixed
        [RaisesTimeout; RaisesTimeout; RaisesTimeout; RaisesTimeout;
         RaisesTimeout; Reply 200 (Some [item "a1" 300])]) empty_disk).1
  = Returned [] /\
  (collect_post_urls (new_crawler dogs 5) dogs [] None
     (map fixed
        [Reply 200 (Some [item "a1" 300]); RaisesTimeout; Reply 200 None;
         Reply 503 None; Reply 200 (Some [item "a2" 200])]) empty_disk).1
  = Returned [cand "a1" 300].
Proof. vm_compute. split; reflexivity. Qed.

(** Below the ceilings the request is repeated: two HTTP failures, or
    four timeouts, and the page that follows is collected; so is a page
    that follows two failures of each kind separated by a page. *)
Example retry_examples :
  (collect_post_urls (new_crawler dogs 5) dogs [] None
     (map fixed
        [Reply 503 None; Reply 503 None; Reply 200 (Some [item "a1" 300]);
         Reply 200 (Some [])]) empty_disk).1
  = Returned [cand "a1" 300] /\
  (collect_post_urls (new_crawler dogs 5) dogs [] None
     (map fixed
        [RaisesTimeout; RaisesTimeout; RaisesTimeout; RaisesTimeout;
         Reply 200 (Some [item "a1" 300]); Reply 200 (Some [])])
     empty_disk).1
  = Returned [cand "a1" 300] /\
  (collect_post_urls (new_crawler dogs 5) dogs [] None
     (map fixed
        [Reply 503 None; Reply 503 None; Reply 200 (Some [item "a1" 300]);
         Reply 503 None; Reply 503 None; Reply 200 (Some [item "a2" 200]);
         Reply 200 (Some [])]) empty_disk).1
  = Returned [cand "a1" 300; cand "a2" 200].
Proof. vm_compute. repeat split. Qed.

(** ** The dedup invariant *)

Lemma match_post_id_nonempty s i :
  match_post_id s = Some i -> i <> EmptyString.
Proof.
  unfold match_post_id. intros H.
  repeat case_match; simplify_eq; discriminate.
Qed.

Lemma extract_post_id_nonempty u i :
  _extract_post_id u = Some i -> i <> EmptyString.
Proof.
  induction u as [|c u IH]; [vm_compute; discriminate|].
  change (_extract_post_id (String c u))
    with (match match_post_id (String c u) with
          | Some j => Some j
          | None => _extract_post_id u
          end).
  destruct (match_post_id (String c u)) eqn:E; [|exact IH].
  intros [= ->]. eapply match_post_id_nonempty, E.
Qed.

Lemma extract_post_id_truthy u i :
  _extract_post_id u = Some i -> truthy_str (_extract_post_id u) = true.
Proof.
  intros H. rewrite H. simpl. apply negb_true_iff, String.eqb_neq.
  eapply extract_post_id_nonempty, H.
Qed.

Lemma ids_of_urls_candidate_ids urls :
  ids_of_urls urls = list_to_set (candidate_ids urls).
Proof.
  unfold candidate_ids.
  induction urls as [|c urls IH]; simpl; [reflexivity|].
  destruct (_extract_post_id (url c)) as [i|] eqn:E; simpl.
  - pose proof (extract_post_id_truthy _ _ E) as Ht. rewrite E in Ht.
    simpl in Ht. rewrite Ht, IH. reflexivity.
  - exact IH.
Qed.

Lemma candidate_ids_snoc urls c :
  candidate_ids (urls ++ [c]) =
    (candidate_ids urls ++
     match _extract_post_id (url c) with Some i => [i] | None => [] end)%list.
Proof.
  unfold candidate_ids. rewrite omap_app. simpl.
  destruct (_extract_post_id (url c)); reflexivity.
Qed.

Lemma dedup_ok_snoc urls ids c i :
  dedup_ok urls ids -> _extract_post_id (url c) = Some i -> i ∉ ids ->
  dedup_ok (urls ++ [c]) ({[ i ]} ∪ ids).
Proof.
  intros [Hids Hnd] Hc Hi. subst ids.
  rewrite ids_of_urls_candidate_ids in Hi.
  split.
  - rewrite !ids_of_urls_candidate_ids, candidate_ids_snoc, Hc.
    rewrite list_to_set_app_L. simpl.
    rewrite (right_id_L ∅ (∪)). apply (comm_L (∪)).
  - rewrite candidate_ids_snoc, Hc. apply NoDup_app. split; [exact Hnd|].
    split; [|apply NoDup_singleton].
    intros x Hx Hx'. apply list_elem_of_singleton in Hx'. subst x.
    apply Hi. apply elem_of_list_to_set, Hx.
Qed.

(** Every step of the loop over a page keeps the invariant: the lemma
    holds for every list of items, so also for every prefix of a page. *)
Lemma process_posts_dedup limit posts :
  forall urls ids,
    forallb permalink_carries_id posts = true ->
    dedup_ok urls ids ->
    dedup_ok (process_posts limit posts urls ids).1
             (process_posts limit posts urls ids).2.
Proof.
  induction posts as [|post posts IH]; intros urls ids Hposts Hok; simpl;
    [exact Hok|].
  simpl in Hposts. apply andb_prop in Hposts as [Hpost Hposts].
  destruct (limit <=? length urls)%nat; [exact Hok|].
  destruct (truthy_str (api_id post) && truthy_str (api_permalink post)
            && truthy_num (api_created_utc post)) eqn:Hfields;
    [|apply IH; assumption].
  case_bool_decide as Hin; [apply IH; assumption|].
  apply IH; [assumption|].
  unfold permalink_carries_id in Hpost.
  destruct (api_id post) as [i|]; [|discriminate].
  destruct (api_permalink post) as [permalink|];
    [|simpl in Hfields; rewrite andb_false_r in Hfields; discriminate].
  apply bool_decide_eq_true in Hpost. simpl in *.
  apply dedup_ok_snoc; assumption.
Qed.

Lemma process_posts_app limit l1 l2 urls ids :
  process_posts limit (l1 ++ l2) urls ids =
    process_posts limit l2 (process_posts limit l1 urls ids).1
                           (process_posts limit l1 urls ids).2.
Proof.
  revert urls ids.
  induction l1 as [|post l1 IH]; intros urls ids; simpl; [reflexivity|].
  destruct (limit <=? length urls)%nat eqn:Hfull.
  - simpl. destruct l2 as [|post2 l2]; simpl; [reflexivity|].
    rewrite Hfull. reflexivity.
  - destruct (_ && _ && _); [case_bool_decide|]; apply IH.
Qed.

(** An item with all its fields that the loop over a page reaches while
    the list is short of the limit has its id in the set afterwards. *)
Lemma process_posts_collects limit l1 post l2 urls ids :
  has_all_fields post = true ->
  (length (process_posts limit l1 urls ids).1 < limit)%nat ->
  default EmptyString (api_id post)
    ∈ (process_posts limit (l1 ++ post :: l2)%list urls ids).2.
Proof.
  intros Hfields Hroom. rewrite process_posts_app.
  destruct (process_posts limit l1 urls ids) as [urls1 ids1].
  cbn [fst snd] in *. rewrite process_posts_cons.
  replace (limit <=? length urls1)%nat with false
    by (symmetry; apply Nat.leb_gt; exact Hroom).
  rewrite Hfields. case_bool_decide as Hin.
  - destruct (process_posts_grows limit l2 urls1 ids1)
      as (new & _ & _ & _ & Hsub).
    apply Hsub, Hin.
  - destruct (process_posts_grows limit l2
                (urls1 ++ [candidate_of post])%list
                ({[default EmptyString (api_id post)]} ∪ ids1))
      as (new & _ & _ & _ & Hsub).
    apply Hsub. set_solver.
Qed.

Lemma failed_state ceiling st d :
  step_state (failed ceiling st d)
  = with_errors st (consecutive_errors st + 1).
Proof. unfold failed. destruct (ceiling <=? _)%nat; reflexivity. Qed.

(** The id set after the step that receives a page. *)
Lemma collect_step_page self posts st d :
  posts <> [] ->
  collected_post_ids
    (step_state (collect_step self (Reply 200 (Some posts)) st d))
  = (process_posts (max_posts self) posts (collected_urls st)
       (collected_post_ids st)).2.
Proof.
  intros Hne. unfold collect_step. cbn [negb Z.eqb Pos.eqb].
  destruct posts as [|post0 posts]; [congruence|].
  destruct (process_posts _ (post0 :: posts) _ _) as [urls ids].
  destruct (last (post0 :: posts)) as [oldest|] eqn:Hlast;
    [|apply last_None in Hlast; discriminate].
  destruct (api_created_utc oldest) as [t|].
  - destruct (_ || _); reflexivity.
  - rewrite failed_state. reflexivity.
Qed.

Lemma collect_step_ids_grow self r st d :
  collected_post_ids st
    ⊆ collected_post_ids (step_state (collect_step self r st d)).
Proof.
  unfold collect_step.
  destruct r as [code body| | | |]; try (rewrite failed_state; reflexivity).
  - destruct (negb (code =? 200)); [rewrite failed_state; reflexivity|].
    destruct body as [[|post0 posts]|];
      [reflexivity| |rewrite failed_state; reflexivity].
    destruct (process_posts_grows (max_posts self) (post0 :: posts)
                (collected_urls st) (collected_post_ids st))
      as (new & _ & _ & _ & Hsub).
    destruct (process_posts _ (post0 :: posts) _ _) as [urls ids].
    cbn [fst snd] in Hsub.
    destruct (last (post0 :: posts)) as [oldest|]; [|reflexivity].
    destruct (api_created_utc oldest) as [t|].
    + destruct (_ || _); exact Hsub.
    + rewrite failed_state. exact Hsub.
  - reflexivity.
Qed.

Lemma collect_loop_ids_grow self name script :
  forall st d,
    collected_post_ids st
      ⊆ collected_post_ids (collect_loop self name script st d).1.2.
Proof.
  induction script as [|r script IH]; intros st d.
  - rewrite collect_loop_nil. destruct (_ <? _)%nat; reflexivity.
  - rewrite collect_loop_cons. destruct (_ <? _)%nat; [|reflexivity].
    pose proof (collect_step_ids_grow self (r (request_of self name st))
                  st d) as Hstep.
    destruct (collect_step self (r (request_of self name st)) st d)
      as [st' d'|st' d'|st' d']; cbn [step_state] in Hstep.
    + etrans; [exact Hstep|apply IH].
    + exact Hstep.
    + exact Hstep.
Qed.

Lemma save_progress_checkpoint_ok self current_index urls flag progress d :
  checkpoint_ok d ->
  match progress with
  | Some cp => cp_collected_post_ids cp = ids_of_urls urls
  | None => True
  end ->
  checkpoint_ok (save_progress self current_index urls flag progress d).
Proof.
  unfold checkpoint_ok, save_progress, write_state, next_fault.
  intros Hd Hcp.
  destruct (faults d) as [|[| |] fs]; simpl; try exact Hcp; try exact Hd.
  exact I.
Qed.

Lemma save_url_collection_progress_ok self urls before_timestamp target d :
  checkpoint_ok d ->
  checkpoint_ok
    (save_url_collection_progress self urls before_timestamp target d).
Proof.
  intros Hd. unfold save_url_collection_progress.
  apply save_progress_checkpoint_ok; [exact Hd|reflexivity].
Qed.

Lemma failed_dedup ceiling st d :
  dedup_ok (collected_urls st) (collected_post_ids st) ->
  checkpoint_ok d ->
  match failed ceiling st d with
  | Continue st' d' | Break st' d' | Raise st' d' =>
      dedup_ok (collected_urls st') (collected_post_ids st') /\
      checkpoint_ok d'
  end.
Proof.
  intros Hok Hd. unfold failed.
  destruct (ceiling <=? _)%nat; split; assumption.
Qed.

Lemma collect_step_dedup self r st d :
  forallb permalink_carries_id (page_posts r) = true ->
  dedup_ok (collected_urls st) (collected_post_ids st) ->
  checkpoint_ok d ->
  match collect_step self r st d with
  | Continue st' d' | Break st' d' | Raise st' d' =>
      dedup_ok (collected_urls st') (collected_post_ids st') /\
      checkpoint_ok d'
  end.
Proof.
  intros Hr Hok Hd. unfold collect_step.
  destruct r as [code body| | | |]; try (apply failed_dedup; assumption).
  - destruct (negb (code =? 200)); [apply failed_dedup; assumption|].
    destruct body as [[|post0 posts]|];
      [split; assumption| |apply failed_dedup; assumption].
    simpl in Hr.
    pose proof (process_posts_dedup (max_posts self) (post0 :: posts)
                  _ _ Hr Hok) as Hok'.
    destruct (process_posts _ (post0 :: posts) _ _) as [urls ids].
    simpl in Hok'.
    destruct (last (post0 :: posts)) as [oldest|]; [|split; assumption].
    destruct (api_created_utc oldest) as [t|].
    + destruct (_ || _); simpl; split; try assumption.
      apply save_url_collection_progress_ok, Hd.
    + apply failed_dedup; assumption.
  - split; [assumption|]. apply save_url_collection_progress_ok, Hd.
Qed.

Lemma finish_dedup self st d :
  dedup_ok (collected_urls st) (collected_post_ids st) ->
  checkpoint_ok d ->
  dedup_ok (collected_urls (finish self st d).1.2)
           (collected_post_ids (finish self st d).1.2) /\
  checkpoint_ok (finish self st d).2 /\
  (finish self st d).1.1 = Returned (take (max_posts self) (collected_urls st)).
Proof.
  intros Hok Hd. unfold finish; simpl. split; [exact Hok|]. split; [|reflexivity].
  destruct (_ || _); [apply save_url_collection_progress_ok|]; exact Hd.
Qed.

Lemma candidate_ids_take n urls :
  NoDup (candidate_ids urls) -> NoDup (candidate_ids (take n urls)).
Proof.
  intros H. rewrite <- (take_drop n urls) in H.
  unfold candidate_ids in *. rewrite omap_app in H.
  apply NoDup_app in H as [H _]. exact H.
Qed.

Lemma finish_dedup_result self st d :
  dedup_ok (collected_urls st) (collected_post_ids st) ->
  checkpoint_ok d ->
  let out := finish self st d in
  dedup_ok (collected_urls out.1.2) (collected_post_ids out.1.2) /\
  checkpoint_ok out.2 /\
  (forall urls, out.1.1 = Returned urls -> NoDup (candidate_ids urls)).
Proof.
  intros Hok Hd out. subst out.
  destruct (finish_dedup self st d Hok Hd) as (H1 & H2 & H3).
  split; [exact H1|]. split; [exact H2|].
  intros urls. rewrite H3. intros [= <-].
  apply candidate_ids_take, Hok.
Qed.

Lemma collect_loop_dedup self name script :
  forall st d,
    consistent_script script ->
    dedup_ok (collected_urls st) (collected_post_ids st) ->
    checkpoint_ok d ->
    let out := collect_loop self name script st d in
    dedup_ok (collected_urls out.1.2) (collected_post_ids out.1.2) /\
    checkpoint_ok out.2 /\
    (forall urls, out.1.1 = Returned urls -> NoDup (candidate_ids urls)).
Proof.
  induction script as [|r script IH]; intros st d Hscript Hok Hd out;
    subst out.
  - rewrite collect_loop_nil. destruct (_ <? _)%nat.
    + split; [exact Hok|]. split; [exact Hd|]. discriminate.
    + apply finish_dedup_result; assumption.
  - inversion Hscript as [|? ? Hr Hscript']; subst.
    rewrite collect_loop_cons. destruct (_ <? _)%nat.
    + pose proof (collect_step_dedup self (r (request_of self name st))
                    st d (Hr _) Hok Hd) as Hstep.
      destruct (collect_step self (r (request_of self name st)) st d)
        as [st' d'|st' d'|st' d'];
        destruct Hstep as [Hok' Hd'].
      * apply IH; assumption.
      * apply finish_dedup_result; assumption.
      * split; [exact Hok'|]. split; [exact Hd'|]. discriminate.
    + apply finish_dedup_result; assumption.
Qed.

Lemma collect_init_dedup existing_urls progress :
  start_ok existing_urls progress ->
  dedup_ok (collected_urls (collect_init existing_urls progress))
           (collected_post_ids (collect_init existing_urls progress)).
Proof.
  intros [Hnd Hcp]. destruct progress as [cp|]; simpl; split; assumption || reflexivity.
Qed.

Lemma collect_loop_starved_app self name s1 s2 :
  forall st d st1 d1,
    collect_loop self name s1 st d = (Starved, st1, d1) ->
    collect_loop self name (s1 ++ s2)%list st d = collect_loop self name s2 st1 d1.
Proof.
  induction s1 as [|r s1 IH]; intros st d st1 d1.
  - rewrite collect_loop_nil. destruct (_ <? _)%nat; [|discriminate].
    intros [= <- <-]. reflexivity.
  - simpl app. rewrite !collect_loop_cons.
    destruct (_ <? _)%nat; [|discriminate].
    destruct (collect_step self (r (request_of self name st)) st d)
      as [st' d'|st' d'|st' d'];
      [apply IH|discriminate|discriminate].
Qed.

Lemma collect_loop_starved_room self name s :
  forall st d st1 d1,
    collect_loop self name s st d = (Starved, st1, d1) ->
    (length (collected_urls st1) <? max_posts self)%nat = true.
Proof.
  induction s as [|r s IH]; intros st d st1 d1.
  - rewrite collect_loop_nil.
    destruct (_ <? _)%nat eqn:Hroom; [|discriminate].
    intros [= <- <-]. exact Hroom.
  - rewrite collect_loop_cons. destruct (_ <? _)%nat; [|discriminate].
    destruct (collect_step self (r (request_of self name st)) st d)
      as [st' d'|st' d'|st' d'];
      [apply IH|discriminate|discriminate].
Qed.

Lemma occurrences_once i urls :
  NoDup (candidate_ids urls) -> i ∈ candidate_ids urls ->
  occurrences i urls = 1%nat.
Proof.
  intros Hnd Hin. unfold occurrences.
  apply NoDup_ListNoDup in Hnd.
  apply (proj1 (NoDup_count_occ' string_dec (candidate_ids urls)) Hnd).
  apply list_elem_of_In, Hin.
Qed.

(** C3, for items whose URL gives back their id.  Started afresh or
    from a checkpoint whose id set is the projection of its candidates,
    [collect_post_urls] keeps the invariant through every page and every
    item: the id set is the identifier projection of the candidates and
    no identifier occurs twice; the returned list has no repeated
    identifier; and the id set of every checkpoint it writes is the
    projection of the candidates stored with it.  Every item with an id,
    a permalink and a creation time that a page delivers while the list
    is short of [max_posts] is collected: its identifier occurs exactly
    once among the candidates at the end, and exactly once in the
    returned list, however often the pages repeat it. *)
Theorem dedup_invariant
  (self : crawler) (target_url : string) (existing_urls : list candidate)
  (progress : option collection_progress) (script : upstream)
  (d : disk) :
  consistent_script script ->
  start_ok existing_urls progress ->
  checkpoint_ok d ->
  let out :=
    collect_loop self (_extract_subreddit_name target_url) script
      (collect_init existing_urls progress) d in
  let res :=
    collect_post_urls self target_url existing_urls progress script d in
  dedup_ok (collected_urls out.1.2) (collected_post_ids out.1.2) /\
  checkpoint_ok out.2 /\
  (forall urls, res.1 = Returned urls -> NoDup (candidate_ids urls)) /\
  checkpoint_ok res.2 /\
  (forall limit posts urls ids,
     forallb permalink_carries_id posts = true ->
     dedup_ok urls ids ->
     dedup_ok (process_posts limit posts urls ids).1
              (process_posts limit posts urls ids).2) /\
  (forall s1 answer s2 st1 d1 l1 post l2,
     script = (s1 ++ answer :: s2)%list ->
     collect_loop self (_extract_subreddit_name target_url) s1
       (collect_init existing_urls progress) d = (Starved, st1, d1) ->
     answer (request_of self (_extract_subreddit_name target_url) st1)
     = Reply 200 (Some (l1 ++ post :: l2)%list) ->
     has_all_fields post = true ->
     (length (process_posts (max_posts self) l1 (collected_urls st1)
                (collected_post_ids st1)).1 < max_posts self)%nat ->
     occurrences (default EmptyString (api_id post))
       (collected_urls out.1.2) = 1%nat /\
     (listing_target target_url = true ->
      forall urls, res.1 = Returned urls ->
        occurrences (default EmptyString (api_id post)) urls = 1%nat)).
Proof.
  intros Hscript Hstart Hd out res.
  pose proof (collect_loop_dedup self (_extract_subreddit_name target_url)
                script _ d Hscript
                (collect_init_dedup _ _ Hstart) Hd) as (Hok & Hd' & Hres).
  fold out in Hok, Hd', Hres.
  split; [exact Hok|]. split; [exact Hd'|].
  assert (Hsingle : forall c : candidate, NoDup (candidate_ids [c])).
  { intros c. unfold candidate_ids. simpl.
    destruct (_extract_post_id (url c)); [apply NoDup_singleton|constructor]. }
  split; [|split; [|split]].
  - subst res. unfold collect_post_urls.
    destruct (contains "/comments/" target_url).
    { simpl. intros urls [= <-]. apply Hsingle. }
    destruct (_ || _).
    { simpl. intros urls [= <-]. constructor. }
    fold out. destruct out as [[r st'] d'']. exact Hres.
  - subst res. unfold collect_post_urls.
    destruct (contains "/comments/" target_url); [exact Hd|].
    destruct (_ || _); [exact Hd|].
    fold out. destruct out as [[r st'] d'']. exact Hd'.
  - intros limit posts urls ids. apply process_posts_dedup.
  - intros s1 answer s2 st1 d1 l1 post l2 Hsplit Hs1 Hanswer Hfields Hroom.
    pose proof (collect_loop_starved_room _ _ _ _ _ _ _ Hs1) as Hroom1.
    assert (Hout : out = collect_loop self
                           (_extract_subreddit_name target_url)
                           (answer :: s2) st1 d1).
    { unfold out. rewrite Hsplit.
      apply (collect_loop_starved_app _ _ _ _ _ _ _ _ Hs1). }
    assert (Hin : default EmptyString (api_id post)
                  ∈ collected_post_ids out.1.2).
    { rewrite Hout, collect_loop_cons, Hroom1, Hanswer.
      pose proof (collect_step_page self (l1 ++ post :: l2)%list st1 d1) as Hpage.
      pose proof (process_posts_collects (max_posts self) l1 post l2
                    (collected_urls st1) (collected_post_ids st1)
                    Hfields Hroom) as Hid.
      rewrite <- Hpage in Hid by (destruct l1; discriminate).
      destruct (collect_step self (Reply 200 (Some (l1 ++ post :: l2)%list))
                  st1 d1) as [st' d'|st' d'|st' d'];
        cbn [step_state] in Hid; [|exact Hid|exact Hid].
      apply (collect_loop_ids_grow self _ s2 st' d'), Hid. }
    destruct Hok as [Hids Hnd].
    rewrite Hids, ids_of_urls_candidate_ids in Hin.
    apply elem_of_list_to_set in Hin.
    pose proof (occurrences_once _ _ Hnd Hin) as Honce.
    split; [exact Honce|].
    intros Htarget urls Hurls.
    assert (Hres' : out.1.1 = Returned urls).
    { subst res. unfold collect_post_urls in Hurls.
      unfold listing_target in Htarget.
      apply andb_prop in Htarget as [Htarget Hname2].
      apply andb_prop in Htarget as [Hpost Hname1].
      apply negb_true_iff in Hpost, Hname1, Hname2.
      rewrite Hpost, Hname1, Hname2 in Hurls. simpl orb in Hurls.
      cbv iota in Hurls. fold out in Hurls.
      destruct out as [[r st'] d'']. exact Hurls. }
    pose proof Hres' as Htake. unfold out in Htake.
    apply collect_loop_returned in Htake. fold out in Htake.
    pose proof (collect_loop_keeps self (_extract_subreddit_name target_url)
                  (answer :: s2) st1 d1) as (_ & Hbound & _).
    rewrite <- Hout in Hbound.
    rewrite take_ge in Htake
      by (apply Hbound; apply Nat.ltb_lt in Hroom1; lia).
    rewrite Htake. exact Honce.
Qed.

Lemma dedup_invariant_witness :
  let script :=
    [ fixed (Reply 200 (Some [item "a1" 300; item "a2" 200]));
      fixed (Reply 200 (Some [item "a2" 200; item "a3" 100]));
      fixed (Reply 200 (Some [])) ] in
  let out :=
    collect_loop (new_crawler dogs 5) "dogs" script (collect_init [] None)
      empty_disk in
  dedup_ok (collected_urls out.1.2) (collected_post_ids out.1.2) /\
  out.1.1 = Returned [cand "a1" 300; cand "a2" 200; cand "a3" 100] /\
  occurrences "a2" (collected_urls out.1.2) = 1%nat.
Proof.
  intros script out.
  pose proof (dedup_invariant (new_crawler dogs 5) dogs [] None script
                empty_disk) as H.
  destruct H as (Hok & _ & _ & _ & _ & Honce).
  - repeat (constructor; [intros req; reflexivity|]). constructor.
  - split; [constructor|exact I].
  - exact I.
  - split; [exact Hok|]. split; [vm_compute; reflexivity|].
    pose (first :=
            collect_loop (new_crawler dogs 5) "dogs"
              [fixed (Reply 200 (Some [item "a1" 300; item "a2" 200]))]
              (collect_init [] None) empty_disk).
    destruct (Honce [fixed (Reply 200 (Some [item "a1" 300; item "a2" 200]))]
                (fixed (Reply 200 (Some [item "a2" 200; item "a3" 100])))
                [fixed (Reply 200 (Some []))] first.1.2 first.2 []
                (item "a2" 200) [item "a3" 100]) as [H2 _].
    + reflexivity.
    + vm_compute. reflexivity.
    + reflexivity.
    + reflexivity.
    + vm_compute. lia.
    + exact H2.
Defined.

(** C3 as stated fails on a page whose items carry another id in their
    permalink: the set kept in memory holds the API ids, the one written
    to the checkpoint the ids found in the URLs, and one identifier is
    collected twice. *)
Lemma dedup_counterexample :
  let script :=
    [ fixed (Reply 200 (Some [odd_item "a1" "zz" 300;
                              odd_item "a2" "zz" 200]));
      fixed (Reply 200 (Some [])) ] in
  let out :=
    collect_loop (new_crawler dogs 5) "dogs" script (collect_init [] None)
      empty_disk in
  out.1.1 = Returned [cand "zz" 300; cand "zz" 200] /\
  candidate_ids (collected_urls out.1.2) = ["zz"; "zz"] /\
  elements (collected_post_ids out.1.2) = ["a1"; "a2"] /\
  elements (ids_of_urls (collected_urls out.1.2)) = ["zz"] /\
  match state_file out.2 with
  | Content sd =>
      option_map (fun cp => elements (cp_collected_post_ids cp))
        (url_collection_progress sd) = Some ["zz"]
  | _ => False
  end /\
  ~ dedup_ok (collected_urls out.1.2) (collected_post_ids out.1.2).
Proof.
  intros script out.
  assert (H1 : elements (collected_post_ids out.1.2) = ["a1"; "a2"])
    by (vm_compute; reflexivity).
  assert (H2 : elements (ids_of_urls (collected_urls out.1.2)) = ["zz"])
    by (vm_compute; reflexivity).
  repeat split; try (vm_compute; reflexivity); try assumption.
  intros [Heq _]. rewrite Heq, H2 in H1. discriminate.
Qed.

(** ** Resuming a collection *)


Lemma save_url_collection_progress_no_fault self urls b target d :
  faults d = [] ->
  faults (save_url_collection_progress self urls b target d) = [] /\
  exists sd,
    state_file (save_url_collection_progress self urls b target d)
      = Content sd /\
    collected_urls_with_source sd = urls /\
    exists cp,
      url_collection_progress sd = Some cp /\
      cp_before_timestamp cp = b /\
      cp_collected_post_ids cp = ids_of_urls urls.
Proof.
  intros Hd. unfold save_url_collection_progress, save_progress.
  rewrite write_state_no_fault by exact Hd. simpl.
  split; [reflexivity|]. eexists. split; [reflexivity|].
  split; [reflexivity|]. eexists. repeat split.
Qed.

Lemma failed_no_fault ceiling st d :
  faults d = [] ->
  match failed ceiling st d with
  | Continue _ d' | Break _ d' | Raise _ d' => faults d' = []
  end.
Proof. intros Hd. unfold failed. destruct (ceiling <=? _)%nat; exact Hd. Qed.

Lemma collect_step_no_fault self r st d :
  faults d = [] ->
  match collect_step self r st d with
  | Continue _ d' | Break _ d' | Raise _ d' => faults d' = []
  end.
Proof.
  intros Hd. unfold collect_step.
  destruct r as [code body| | | |]; try (apply failed_no_fault; exact Hd).
  - destruct (negb (code =? 200)); [apply failed_no_fault; exact Hd|].
    destruct body as [[|post0 posts]|];
      [exact Hd| |apply failed_no_fault; exact Hd].
    destruct (process_posts _ (post0 :: posts) _ _) as [urls ids].
    destruct (last (post0 :: posts)) as [oldest|]; [|exact Hd].
    destruct (api_created_utc oldest) as [t|].
    + destruct (_ || _); [|exact Hd].
      apply save_url_collection_progress_no_fault, Hd.
    + apply failed_no_fault; exact Hd.
  - apply save_url_collection_progress_no_fault, Hd.
Qed.










Example resume_equivalence_result :
  split_run (new_crawler dogs 5) dogs
    [dogs_archive] [dogs_archive; dogs_archive] empty_disk
  = Some (Returned [cand "a1" 300; cand "a2" 200; cand "a3" 100]) /\
  (collect_post_urls (new_crawler dogs 5) dogs [] None
     [dogs_archive; dogs_archive; dogs_archive] empty_disk).1
  = Returned [cand "a1" 300; cand "a2" 200; cand "a3" 100] /\
  dogs_archive {| req_subreddit := "dogs"; req_size := 3;
                  req_before := Some 200 |}
  = Reply 200 (Some [item "a3" 100]) /\
  dogs_archive {| req_subreddit := "dogs"; req_size := 3;
                  req_before := None |}
  = Reply 200 (Some [item "a1" 300; item "a2" 200]).
Proof. vm_compute. repeat split. Qed.


(* ===================================================================== *)
(** * Properties of the driver                                            *)
(* ===================================================================== *)

Lemma finally_fields self d e url_list current_index completed :
  let r := finally self d e url_list current_index completed in
  r_exit r = e /\ r_url_list r = url_list /\
  r_current_index r = current_index /\
  r_completed_normally r = completed /\
  r_state_file_removed r = completed /\
  (completed = true -> state_file (r_disk r) = Missing).
Proof.
  unfold finally. destruct (save_data self current_index d) as [self' d'].
  simpl. repeat split. intros ->. reflexivity.
Qed.

Lemma finally_early self d e url_list current_index :
  early_exit e = true ->
  removal_justified (finally self d e url_list current_index false).
Proof.
  intros He.
  destruct (finally_fields self d e url_list current_index false)
    as (H1 & H2 & H3 & _ & H5 & _).
  unfold removal_justified. rewrite H1, H2, H3, H5.
  repeat split; first [discriminate|congruence].
Qed.

Lemma fetch_phase_removal env self d url_list current_index :
  removal_justified (fetch_phase env self d url_list current_index).
Proof.
  unfold fetch_phase.
  destruct (init_browser_raises env); [apply finally_early; reflexivity|].
  destruct (fetch_loop _ _ _ _ _) as [e ls].
  match goal with
  | |- removal_justified (finally ?s ?d ?x ?u ?i ?c) =>
      destruct (finally_fields s d x u i c) as (H1 & H2 & H3 & _ & H5 & H6);
      set (r := finally s d x u i c) in *
  end.
  unfold removal_justified. rewrite H1, H2, H3, H5.
  destruct e; simpl.
  - destruct (_ <=? _) eqn:Hle.
    + split; [intros _; split; [reflexivity|]; split;
              [apply Z.leb_le, Hle|apply H6; reflexivity]|].
      split; [discriminate|]. intros _ Hlt. apply Z.leb_le in Hle. lia.
    + repeat split; discriminate.
  - destruct (_ <=? _) eqn:Hle.
    + split; [intros _; split; [reflexivity|]; split;
              [apply Z.leb_le, Hle|apply H6; reflexivity]|].
      split; [discriminate|]. intros _ Hlt. apply Z.leb_le in Hle. lia.
    + repeat split; discriminate.
  - repeat split; discriminate.
  - repeat split; discriminate.
Qed.

Lemma collect_phase_removal env self d existing_urls progress current_index :
  removal_justified
    (collect_phase env self d existing_urls progress current_index).
Proof.
  unfold collect_phase.
  destruct (collect_post_urls _ _ _ _ _ _) as [[[|c urls]| |] d1].
  - apply finally_early; reflexivity.
  - apply fetch_phase_removal.
  - apply finally_early; reflexivity.
  - unfold removal_justified; simpl. repeat split; discriminate.
Qed.

(** C2, as the code decides completion.  [crawl_posts] removes the state
    file only after the fetch loop has ended by itself, at the end of its
    range or at the failure ceiling, with [current_index] at or past the
    end of the candidate list, whether the fetches succeeded or not.  A
    run that ends before the fetch loop, that is interrupted or that ends
    on an escaping exception keeps the file, and so does a run that stops
    at the failure ceiling before the last candidate. *)
Theorem state_file_removed_only_at_end
  (self : crawler) (env : environment) (d : disk) :
  let r := crawl_posts self env d in
  (r_state_file_removed r = true ->
     early_exit (r_exit r) = false /\
     Z.of_nat (length (r_url_list r)) <= r_current_index r /\
     state_file (r_disk r) = Missing) /\
  (early_exit (r_exit r) = true -> r_state_file_removed r = false) /\
  (r_exit r = LoopEnded FailureCeiling ->
     r_current_index r < Z.of_nat (length (r_url_list r)) ->
     r_state_file_removed r = false).
Proof.
  unfold crawl_posts. destruct (load_progress self d) as [p self0].
  destruct (_ && _); [apply fetch_phase_removal|].
  destruct (negb _); [apply collect_phase_removal|apply fetch_phase_removal].
Qed.

(** Runs that keep the state file: an interruption, and the failure
    ceiling reached before the last candidate. *)
Example state_file_kept_examples :
  let r1 := crawl_posts (new_crawler dogs 5) interrupted_at_second
              empty_disk in
  let upstream4 :=
    [fixed (Reply 200 (Some [item "a1" 400; item "a2" 300; item "a3" 200;
                             item "a4" 100]))] in
  let r2 := crawl_posts (new_crawler dogs 4) (none_fetched upstream4)
              empty_disk in
  (r_exit r1 = LoopEnded KeyboardInterrupt /\
   r_state_file_removed r1 = false /\ stored_index (r_disk r1) = Some 2) /\
  (r_exit r2 = LoopEnded FailureCeiling /\ r_current_index r2 = 3 /\
   r_state_file_removed r2 = false /\ stored_index (r_disk r2) = Some 1).
Proof. vm_compute. repeat split. Qed.

(** C2 as stated fails: the only candidate is not fetched, nothing is
    written to the output file, and the run still counts as completed and
    removes the state file. *)
Lemma state_file_removed_counterexample :
  let r := crawl_posts (new_crawler dogs 1)
             (none_fetched [fixed (Reply 200 (Some [item "a1" 300]))])
             empty_disk in
  r_url_list r = [cand "a1" 300] /\
  r_exit r = LoopEnded RangeExhausted /\
  total_crawled_count (r_self r) = 0%nat /\
  output_file (r_disk r) = Missing /\
  r_state_file_removed r = true /\
  state_file (r_disk r) = Missing.
Proof. vm_compute. repeat split. Qed.

(** The failure ceiling reached on the last candidate is taken for a
    completed run as well. *)
Example ceiling_at_last_candidate :
  let r := crawl_posts (new_crawler dogs 3)
             (none_fetched
                [fixed (Reply 200 (Some [item "a1" 300; item "a2" 200;
                                         item "a3" 100]))]) empty_disk in
  r_exit r = LoopEnded FailureCeiling /\
  r_current_index r = 3 /\
  output_file (r_disk r) = Missing /\
  r_state_file_removed r = true.
Proof. vm_compute. repeat split. Qed.

(** ** The stored index *)

Lemma update_progress_index_output self current_index d :
  output_file (update_progress_index self current_index d) = output_file d.
Proof.
  unfold update_progress_index, write_state, next_fault, logged.
  destruct (state_file d); try reflexivity.
  destruct (faults d) as [|[| |] fs]; reflexivity.
Qed.

(** [save_data] changes the state file only after it has appended the
    pending batch to the output file. *)
Lemma save_data_advances_after_append self current_index d :
  let out := save_data self current_index d in
  state_file out.2 <> state_file d ->
  all_posts_data self <> [] /\
  all_posts_data out.1 = [] /\
  exists existing_data,
    output_file out.2 = Content (existing_data ++ all_posts_data self)%list.
Proof.
  unfold save_data, next_fault.
  destruct (all_posts_data self) as [|post0 posts] eqn:Hall;
    [simpl; congruence|].
  destruct (faults d) as [|[| |] fs]; cbn -[update_progress_index];
    try congruence.
  all: intros _; split; [discriminate|]; split; [reflexivity|];
    eexists; rewrite update_progress_index_output; reflexivity.
Qed.

Lemma update_progress_index_stored self current_index d :
  stored_index (update_progress_index self current_index d)
  = stored_index d \/
  stored_index (update_progress_index self current_index d) = None \/
  stored_index (update_progress_index self current_index d)
  = Some current_index.
Proof.
  unfold update_progress_index, write_state, next_fault, logged, stored_index.
  destruct (state_file d) eqn:Hsf; simpl; try rewrite Hsf; auto.
  destruct (faults d) as [|[| |] fs]; simpl; try rewrite Hsf; auto.
Qed.

Lemma save_data_stored self current_index d :
  stored_index (save_data self current_index d).2 = stored_index d \/
  stored_index (save_data self current_index d).2 = None \/
  stored_index (save_data self current_index d).2 = Some current_index.
Proof.
  unfold save_data, next_fault.
  destruct (all_posts_data self) as [|post0 posts]; [auto|].
  destruct (faults d) as [|[| |] fs]; cbn -[update_progress_index]; auto.
  all: match goal with
       | |- context [update_progress_index ?s ?c ?d0] =>
           destruct (update_progress_index_stored s c d0) as [H|[H|H]];
           rewrite H; auto
       end.
Qed.

Ltac loop_simpl :=
  cbv beta iota zeta;
  cbn [ls_current_index ls_disk ls_self ls_consecutive_failures fst snd].

(** One iteration writes no index below the one stored. *)
Lemma fetch_iteration_index it index ls :
  stored_at_most (ls_disk ls) (index + 1) ->
  let out := fetch_iteration it index ls in
  ls_current_index out.2 = index + 1 /\
  stored_at_most (ls_disk out.2) (index + 1) /\
  index_not_decreased (ls_disk ls) (ls_disk out.2).
Proof.
  intros Hle. unfold fetch_iteration.
  assert (Hsame : index_not_decreased (ls_disk ls) (ls_disk ls)).
  { intros i i' H1 H2. rewrite H1 in H2. injection H2 as <-. lia. }
  assert (Hafter : forall ls0,
             ls_current_index ls0 = index + 1 ->
             stored_at_most (ls_disk ls0) (index + 1) ->
             index_not_decreased (ls_disk ls) (ls_disk ls0) ->
             ls_current_index (after_fetch it ls0).2 = index + 1 /\
             stored_at_most (ls_disk (after_fetch it ls0).2) (index + 1) /\
             index_not_decreased (ls_disk ls)
               (ls_disk (after_fetch it ls0).2)).
  { intros ls0 H1 H2 H3. unfold after_fetch, after_exception.
    destruct (delay_raises it); [|auto].
    destruct (3 <=? _)%nat; [auto|].
    destruct (retry_delay_raises it); auto. }
  destruct (fetched it) as [post_data| |]; loop_simpl.
  - match goal with
    | |- context [if ?c then save_data ?s ?i ?d0 else _] =>
        destruct c;
        [pose proof (save_data_stored s i d0) as Hst;
         destruct (save_data s i d0) as [self2 d2]|]
    end.
    + apply Hafter; loop_simpl; cbn [fst snd] in Hst; [reflexivity| |].
      * intros i Hi. destruct Hst as [H|[H|H]]; rewrite H in Hi.
        -- apply Hle, Hi.
        -- discriminate.
        -- injection Hi as <-. lia.
      * intros i i' Hi Hi'. destruct Hst as [H|[H|H]]; rewrite H in Hi'.
        -- rewrite Hi in Hi'. injection Hi' as <-. lia.
        -- discriminate.
        -- injection Hi' as <-. apply Hle, Hi.
    + apply Hafter; auto.
  - destruct (3 <=? _)%nat; [auto|]. apply Hafter; auto.
  - auto.
Qed.

(** Once the state file is missing or torn, the fetch loop cannot write
    an index to it. *)
Lemma update_progress_index_none self current_index d :
  stored_index d = None ->
  stored_index (update_progress_index self current_index d) = None.
Proof.
  unfold update_progress_index, stored_index, logged.
  destruct (state_file d) eqn:Hsf; simpl; try rewrite Hsf; congruence.
Qed.

Lemma save_data_none self current_index d :
  stored_index d = None ->
  stored_index (save_data self current_index d).2 = None.
Proof.
  intros Hd. unfold save_data, next_fault.
  destruct (all_posts_data self) as [|post0 posts]; [exact Hd|].
  destruct (faults d) as [|[| |] fs]; cbn -[update_progress_index];
    try exact Hd; apply update_progress_index_none; exact Hd.
Qed.

Lemma fetch_iteration_none it index ls :
  stored_index (ls_disk ls) = None ->
  stored_index (ls_disk (fetch_iteration it index ls).2) = None.
Proof.
  intros Hd. unfold fetch_iteration.
  assert (Hafter : forall ls0,
             stored_index (ls_disk ls0) = None ->
             stored_index (ls_disk (after_fetch it ls0).2) = None).
  { intros ls0 H0. unfold after_fetch, after_exception.
    destruct (delay_raises it); [|auto].
    destruct (3 <=? _)%nat; [auto|].
    destruct (retry_delay_raises it); auto. }
  destruct (fetched it) as [post_data| |]; loop_simpl; auto.
  - match goal with
    | |- context [if ?c then save_data ?s ?i ?d0 else _] =>
        destruct c;
        [pose proof (save_data_none s i d0 Hd) as Hst;
         destruct (save_data s i d0) as [self2 d2]|]
    end; apply Hafter; auto.
  - destruct (3 <=? _)%nat; [auto|]. apply Hafter; auto.
Qed.

Lemma fetch_loop_none fetch url_list n :
  forall index ls,
    stored_index (ls_disk ls) = None ->
    stored_index (ls_disk (fetch_loop fetch url_list n index ls).2) = None.
Proof.
  induction n as [|n IH]; intros index ls Hd; simpl; [exact Hd|].
  destruct (py_index url_list index); [|exact Hd].
  pose proof (fetch_iteration_none (fetch index) index ls Hd) as Hn.
  destruct (fetch_iteration (fetch index) index ls) as [[e|] ls'];
    [exact Hn|apply IH, Hn].
Qed.

(** The fetch loop never lowers the stored index, and leaves
    [current_index] at or above it. *)
Lemma fetch_loop_index fetch url_list n :
  forall index ls,
    stored_at_most (ls_disk ls) (ls_current_index ls) ->
    ls_current_index ls <= index + 1 ->
    let out := fetch_loop fetch url_list n index ls in
    stored_at_most (ls_disk out.2) (ls_current_index out.2) /\
    index_not_decreased (ls_disk ls) (ls_disk out.2).
Proof.
  induction n as [|n IH]; intros index ls Hle Hidx; simpl.
  - split; [exact Hle|]. intros i i' H1 H2. rewrite H1 in H2.
    injection H2 as <-. lia.
  - destruct (py_index url_list index); simpl.
    2:{ split; [exact Hle|]. intros i i' H1 H2. rewrite H1 in H2.
        injection H2 as <-. lia. }
    assert (Hle' : stored_at_most (ls_disk ls) (index + 1)).
    { intros i Hi. specialize (Hle i Hi). lia. }
    pose proof (fetch_iteration_index (fetch index) index ls Hle')
      as (Hcur & Hst & Hmono).
    pose proof (fetch_iteration_none (fetch index) index ls) as Hnone.
    destruct (fetch_iteration (fetch index) index ls) as [[e|] ls'];
      simpl in *.
    + split; [rewrite Hcur; exact Hst|exact Hmono].
    + destruct (IH (index + 1) ls') as [H1 H2].
      * rewrite Hcur. exact Hst.
      * lia.
      * split; [exact H1|].
        intros i i' Hi Hi'.
        destruct (stored_index (ls_disk ls')) as [j|] eqn:Hj.
        -- specialize (Hmono i j Hi Hj).
           specialize (H2 j i' Hj Hi'). lia.
        -- rewrite (fetch_loop_none fetch url_list n (index + 1) ls' Hj)
             in Hi'.
           discriminate.
Qed.

(** The part of C1 that holds: within the fetch phase of one run, resumed
    at an index not below the stored one, the index in the state file
    never decreases, whatever the fetches and the writes do. *)
Lemma fetch_phase_index_monotone env self d url_list current_index :
  stored_at_most d current_index ->
  index_not_decreased d
    (r_disk (fetch_phase env self d url_list current_index)).
Proof.
  intros Hle. unfold fetch_phase.
  assert (Hfinal : forall s d0 e c completed,
             stored_at_most d0 c ->
             index_not_decreased d d0 ->
             index_not_decreased d
               (r_disk (finally s d0 e url_list c completed))).
  { intros s d0 e c completed Hc Hmono. unfold finally.
    pose proof (save_data_stored s c d0) as Hst.
    pose proof (save_data_none s c d0) as Hnone.
    destruct (save_data s c d0) as [s' d']. simpl in *.
    destruct completed; [intros i i' _ H; discriminate|].
    intros i i' Hi Hi'. destruct Hst as [H|[H|H]]; rewrite H in Hi'.
    - apply (Hmono i i' Hi Hi').
    - discriminate.
    - injection Hi' as <-.
      destruct (stored_index d0) as [j|] eqn:Hj.
      + specialize (Hmono i j Hi Hj). specialize (Hc j Hj). lia.
      + rewrite (Hnone eq_refl) in H. discriminate. }
  destruct (init_browser_raises env).
  - apply Hfinal; [exact Hle|].
    intros i i' H1 H2. rewrite H1 in H2. injection H2 as <-. lia.
  - match goal with
    | |- context [fetch_loop ?f ?u ?n ?i ?ls] =>
        pose proof (fetch_loop_index f u n i ls) as Hloop;
        destruct (fetch_loop f u n i ls) as [e ls']
    end.
    simpl in Hloop. destruct Hloop as [H1 H2]; [exact Hle|lia|].
    apply Hfinal; assumption.
Qed.

(** C1 at its failing input.  Phase 1 ends on the empty page with three
    candidates of the five wanted; the first run fetches one post and is
    interrupted at the second, leaving the index 2 in the state file.
    The next run is given the same [max_posts]: [load_progress] takes the
    list for an unfinished collection without its progress data, falls
    back to a fresh start, Phase 1 runs again and the state file is
    written with the index 1.  A run that then fetches everything emits
    the first post a second time. *)
Theorem short_collection_resets_stored_index :
  let self := new_crawler dogs 5 in
  let run1 := crawl_posts self interrupted_at_second empty_disk in
  let run2 := crawl_posts self interrupted_at_first (r_disk run1) in
  let run2' := crawl_posts self all_fetched (r_disk run1) in
  stored_index (r_disk run1) = Some 2 /\
  output_file (r_disk run1) = Content [post "a1"] /\
  (load_progress self (r_disk run1)).1 = fresh_start /\
  stored_index (r_disk run2) = Some 1 /\
  r_exit run2' = LoopEnded RangeExhausted /\
  output_file (r_disk run2')
  = Content [post "a1"; post "a1"; post "a2"; post "a3"].
Proof. vm_compute. repeat split. Qed.

(* ===================================================================== *)
(** * Identifiers, subreddit names and endpoint URLs                      *)
(* ===================================================================== *)

(** String concatenation unfolds on a constructor. *)
#[local] Arguments String.append !_ _ / : simpl nomatch.

Lemma startswith_app p b : startswith p (p ++ b) = true.
Proof.
  induction p as [|c p IH]; simpl; [reflexivity|].
  rewrite Ascii.eqb_refl. exact IH.
Qed.

Lemma startswith_inv p s :
  startswith p s = true -> exists b, s = p ++ b.
Proof.
  revert s. induction p as [|c p IH]; intros s; simpl.
  - intros _. exists s. reflexivity.
  - destruct s as [|c' s]; [discriminate|].
    intros H. apply andb_prop in H as [Hc Hp].
    apply Ascii.eqb_eq in Hc. subst c'.
    destruct (IH s Hp) as [b ->]. exists b. reflexivity.
Qed.

Lemma string_app_assoc (a b c : string) : (a ++ b) ++ c = a ++ (b ++ c).
Proof.
  induction a as [|x a IH]; simpl; [reflexivity|]. rewrite IH. reflexivity.
Qed.

Lemma contains_startswith sub s :
  startswith sub s = true -> contains sub s = true.
Proof. intros H. destruct s; simpl; rewrite H; reflexivity. Qed.

Lemma contains_cons sub c s :
  contains sub s = true -> contains sub (String c s) = true.
Proof.
  intros H. change (contains sub (String c s))
    with (startswith sub (String c s) || contains sub s).
  rewrite H. apply orb_true_r.
Qed.

(** [contains] is the substring test. *)
Lemma contains_spec sub s :
  contains sub s = true <-> exists a b, s = a ++ sub ++ b.
Proof.
  split.
  - induction s as [|c s IH]; simpl.
    + rewrite orb_false_r. intros H.
      destruct (startswith_inv _ _ H) as [b Hb]. exists EmptyString, b. exact Hb.
    + intros H. apply orb_prop in H as [H|H].
      * destruct (startswith_inv _ _ H) as [b Hb].
        exists EmptyString, b. exact Hb.
      * destruct (IH H) as (a & b & ->). exists (String c a), b. reflexivity.
  - intros (a & b & ->). induction a as [|c a IH]; simpl.
    + apply contains_startswith, startswith_app.
    + rewrite IH. apply orb_true_r.
Qed.

Lemma strip_prefix_app p r : strip_prefix p (p ++ r) = Some r.
Proof.
  induction p as [|c p IH]; simpl; [reflexivity|].
  rewrite Ascii.eqb_refl. exact IH.
Qed.

Lemma strip_prefix_inv p s r : strip_prefix p s = Some r -> s = p ++ r.
Proof.
  revert s. induction p as [|c p IH]; intros s; simpl.
  - intros [= ->]. reflexivity.
  - destruct s as [|c' s]; [discriminate|].
    destruct (Ascii.eqb c c') eqn:Hc; [|discriminate].
    apply Ascii.eqb_eq in Hc. subst c'. intros H.
    rewrite (IH s H). reflexivity.
Qed.

Lemma span_inv f s run rest :
  span f s = (run, rest) ->
  s = run ++ rest /\ all_chars f run = true /\
  match rest with
  | EmptyString => True
  | String c _ => f c = false
  end.
Proof.
  revert run rest. induction s as [|c s IH]; intros run rest; simpl.
  - intros [= <- <-]. repeat split.
  - destruct (f c) eqn:Hc.
    + destruct (span f s) as [run' rest'] eqn:Hs.
      intros [= <- <-]. destruct (IH _ _ eq_refl) as (-> & Hall & Hrest).
      simpl. rewrite Hc, Hall. repeat split. exact Hrest.
    + intros [= <- <-]. simpl. repeat split. exact Hc.
Qed.

Lemma span_app f run rest :
  all_chars f run = true ->
  match rest with
  | EmptyString => True
  | String c _ => f c = false
  end ->
  span f (run ++ rest) = (run, rest).
Proof.
  intros Hall Hrest. induction run as [|c run IH]; simpl.
  - destruct rest as [|c rest]; simpl; [reflexivity|]. rewrite Hrest.
    reflexivity.
  - simpl in Hall. apply andb_prop in Hall as [Hc Hall].
    rewrite Hc, (IH Hall). reflexivity.
Qed.

(** A match of the post pattern at the start of [s]. *)
Lemma match_post_id_spec s i :
  match_post_id s = Some i <->
  i <> EmptyString /\ all_chars is_alnum i = true /\
  exists tail, s = "/comments/" ++ i ++ "/" ++ tail.
Proof.
  split.
  - unfold match_post_id.
    destruct (strip_prefix "/comments/" s) as [rest|] eqn:Hstrip;
      [|discriminate].
    apply strip_prefix_inv in Hstrip.
    destruct (span is_alnum rest) as [run tl] eqn:Hspan.
    apply span_inv in Hspan as (Hrest & Hall & _).
    destruct run as [|c run]; [discriminate|].
    destruct tl as [|a tl]; [discriminate|].
    assert (Ha : a = "/"%char \/ a <> "/"%char)
      by (destruct (Ascii.eqb_spec a "/"%char); auto).
    destruct Ha as [->|Ha].
    + intros [= <-]. split; [discriminate|]. split; [exact Hall|].
      exists tl. rewrite Hstrip, Hrest. reflexivity.
    + intros H. exfalso. apply Ha. clear -H.
      destruct a as [[] [] [] [] [] [] [] []]; try discriminate. reflexivity.
  - intros (Hne & Hall & tail & ->). unfold match_post_id.
    rewrite strip_prefix_app.
    rewrite (span_app is_alnum i ("/" ++ tail) Hall eq_refl).
    destruct i as [|c i]; [congruence|]. reflexivity.
Qed.

Lemma extract_post_id_cons c url :
  _extract_post_id (String c url) =
    match match_post_id (String c url) with
    | Some i => Some i
    | None => _extract_post_id url
    end.
Proof. reflexivity. Qed.

Lemma extract_post_id_inv (url i : string) :
  _extract_post_id url = Some i ->
  i <> EmptyString /\ all_chars is_alnum i = true /\
  contains ("/comments/" ++ i ++ "/") url = true.
Proof.
  induction url as [|c url IH].
  - vm_compute. discriminate.
  - rewrite extract_post_id_cons.
    destruct (match_post_id (String c url)) as [j|] eqn:Hm.
    + intros [= ->]. apply match_post_id_spec in Hm as (Hne & Hall & tail & Hs).
      split; [exact Hne|]. split; [exact Hall|].
      apply contains_spec. exists EmptyString, tail.
      rewrite Hs, !string_app_assoc. reflexivity.
    + intros H. destruct (IH H) as (Hne & Hall & Hc).
      split; [exact Hne|]. split; [exact Hall|].
      apply contains_cons, Hc.
Qed.

(** X1.  What [_extract_post_id] returns is a non-empty run of letters
    and digits that stands in the URL between [/comments/] and a
    slash. *)
Theorem extract_post_id_sound (url i : string) :
  _extract_post_id url = Some i ->
  i <> EmptyString /\ all_chars is_alnum i = true /\
  contains ("/comments/" ++ i ++ "/") url = true.
Proof. apply extract_post_id_inv. Qed.

Lemma extract_post_id_sound_witness :
  contains ("/comments/" ++ "abc123" ++ "/")
    "https://www.reddit.com/r/dogs/comments/abc123/title/?utm=1" = true.
Proof.
  apply (extract_post_id_sound
           "https://www.reddit.com/r/dogs/comments/abc123/title/?utm=1"
           "abc123").
  reflexivity.
Defined.

Lemma extract_post_id_found a i b :
  i <> EmptyString -> all_chars is_alnum i = true ->
  is_Some (_extract_post_id (a ++ "/comments/" ++ i ++ "/" ++ b)).
Proof.
  intros Hne Hall. induction a as [|c a IH].
  - assert (Hm : match_post_id ("/comments/" ++ i ++ "/" ++ b) = Some i)
      by (apply match_post_id_spec; eauto).
    change (EmptyString ++ "/comments/" ++ i ++ "/" ++ b)
      with (String "/" ("comments/" ++ i ++ "/" ++ b)).
    rewrite extract_post_id_cons.
    change (String "/" ("comments/" ++ i ++ "/" ++ b))
      with ("/comments/" ++ i ++ "/" ++ b).
    rewrite Hm. eauto.
  - change (String c a ++ "/comments/" ++ i ++ "/" ++ b)
      with (String c (a ++ "/comments/" ++ i ++ "/" ++ b)).
    rewrite extract_post_id_cons.
    destruct (match_post_id _); [eauto|exact IH].
Qed.

(** X2.  [_extract_post_id] finds nothing exactly when the URL holds no
    non-empty run of letters and digits between [/comments/] and a
    slash: a post URL without the slash after its id has no
    identifier. *)
Theorem extract_post_id_none_iff (url : string) :
  _extract_post_id url = None <->
  forall i, i <> EmptyString -> all_chars is_alnum i = true ->
            contains ("/comments/" ++ i ++ "/") url = false.
Proof.
  split.
  - intros Hnone i Hne Hall.
    destruct (contains ("/comments/" ++ i ++ "/") url) eqn:Hc; [|reflexivity].
    apply contains_spec in Hc as (a & b & ->).
    rewrite !string_app_assoc in Hnone.
    destruct (extract_post_id_found a i b Hne Hall) as [j Hj].
    simpl in Hnone, Hj. congruence.
  - intros Hno. destruct (_extract_post_id url) as [i|] eqn:He; [|reflexivity].
    destruct (extract_post_id_inv url i He) as (Hne & Hall & Hc).
    rewrite (Hno i Hne Hall) in Hc. discriminate.
Qed.

Example extract_post_id_needs_slash :
  _extract_post_id "https://www.reddit.com/r/dogs/comments/abc123" = None /\
  _extract_post_id "https://www.reddit.com/r/dogs/comments/abc123/"
  = Some "abc123" /\
  _extract_post_id "https://www.reddit.com/r/dogs/comments/a_b/title/" = None.
Proof. vm_compute. repeat split. Qed.

(** ** Permalinks of the forum *)

Lemma match_post_id_not_slash c s :
  c <> "/"%char -> match_post_id (String c s) = None.
Proof.
  intros Hc. unfold match_post_id.
  change (strip_prefix "/comments/" (String c s))
    with (if Ascii.eqb "/"%char c then strip_prefix "comments/" s else None).
  destruct (Ascii.eqb_spec "/"%char c) as [<-|_]; [congruence|reflexivity].
Qed.

Lemma extract_post_id_skip run s :
  all_chars not_slash run = true ->
  _extract_post_id (run ++ s) = _extract_post_id s.
Proof.
  intros Hall. induction run as [|c run IH]; [reflexivity|].
  simpl in Hall. apply andb_prop in Hall as [Hc Hall].
  change (String c run ++ s) with (String c (run ++ s)).
  rewrite extract_post_id_cons, match_post_id_not_slash; [exact (IH Hall)|].
  unfold not_slash in Hc. apply negb_true_iff in Hc.
  intros ->. discriminate.
Qed.

(** Two strings that agree and whose first parts hold no slash split at
    the same slash. *)
Lemma slash_split run1 run2 t1 t2 :
  all_chars not_slash run1 = true -> all_chars not_slash run2 = true ->
  run1 ++ "/" ++ t1 = run2 ++ "/" ++ t2 -> run1 = run2.
Proof.
  revert run2. induction run1 as [|c run1 IH]; intros [|c2 run2] H1 H2;
    simpl in *; intros Heq.
  - reflexivity.
  - injection Heq as <- _. discriminate.
  - injection Heq as -> _. discriminate.
  - injection Heq as <- Heq.
    apply andb_prop in H1 as [_ H1]. apply andb_prop in H2 as [_ H2].
    rewrite (IH run2 H1 H2 Heq). reflexivity.
Qed.

Lemma match_post_id_at_subreddit sub tail :
  all_chars not_slash sub = true -> sub <> "comments" ->
  match_post_id ("/" ++ sub ++ "/" ++ tail) = None.
Proof.
  intros Hsub Hne.
  destruct (match_post_id ("/" ++ sub ++ "/" ++ tail)) as [j|] eqn:Hm;
    [|reflexivity].
  apply match_post_id_spec in Hm as (_ & _ & tail' & Heq).
  exfalso. apply Hne. simpl in Heq. injection Heq as Heq.
  apply (slash_split sub "comments" tail (j ++ "/" ++ tail') Hsub eq_refl).
  exact Heq.
Qed.

Lemma extract_post_id_site_prefix s :
  _extract_post_id ("https://www.reddit.com/r" ++ s) = _extract_post_id s.
Proof. reflexivity. Qed.

(** X3.  The URL built from a permalink of the form
    [/r/<subreddit>/comments/<id>/...] gives back the id, for every
    subreddit name other than "comments" and every id of letters and
    digits: such items satisfy the condition under which the dedup sets
    agree. *)
Theorem canonical_permalink_carries_id
  (sub i rest : string) (t : option Z) :
  all_chars not_slash sub = true -> sub <> "comments" ->
  i <> EmptyString -> all_chars is_alnum i = true ->
  let post :=
    {| api_id := Some i;
       api_permalink := Some ("/r/" ++ sub ++ "/comments/" ++ i ++ "/" ++ rest);
       api_created_utc := t |} in
  _extract_post_id (url (candidate_of post)) = Some i /\
  permalink_carries_id post = true.
Proof.
  intros Hsub Hne Hi Hall post.
  assert (H : _extract_post_id
                ("https://www.reddit.com"
                 ++ "/r/" ++ sub ++ "/comments/" ++ i ++ "/" ++ rest)
              = Some i).
  { change ("https://www.reddit.com"
            ++ "/r/" ++ sub ++ "/comments/" ++ i ++ "/" ++ rest)
      with ("https://www.reddit.com/r"
            ++ String "/" (sub ++ "/" ++ "comments/" ++ i ++ "/" ++ rest)).
    rewrite extract_post_id_site_prefix, extract_post_id_cons.
    change (String "/" (sub ++ "/" ++ "comments/" ++ i ++ "/" ++ rest))
      with ("/" ++ sub ++ "/" ++ "comments/" ++ i ++ "/" ++ rest).
    rewrite (match_post_id_at_subreddit sub _ Hsub Hne).
    rewrite (extract_post_id_skip sub _ Hsub).
    change ("/" ++ "comments/" ++ i ++ "/" ++ rest)
      with (String "/" ("comments/" ++ i ++ "/" ++ rest)).
    rewrite extract_post_id_cons.
    change (String "/" ("comments/" ++ i ++ "/" ++ rest))
      with ("/comments/" ++ i ++ "/" ++ rest).
    assert (Hm : match_post_id ("/comments/" ++ i ++ "/" ++ rest) = Some i)
      by (apply match_post_id_spec; eauto).
    rewrite Hm. reflexivity. }
  split; [exact H|].
  unfold permalink_carries_id, post. cbn [api_id api_permalink].
  apply bool_decide_eq_true. exact H.
Qed.

Lemma canonical_permalink_carries_id_witness :
  permalink_carries_id (item "a1" 300) = true.
Proof.
  apply (canonical_permalink_carries_id "dogs" "a1" "title/" (Some 300));
    first [reflexivity|discriminate].
Defined.

(** In a subreddit named "comments" the pattern matches one segment too
    early, and a listing URL of that subreddit is taken for a post. *)
Example subreddit_named_comments :
  _extract_post_id "https://www.reddit.com/r/comments/comments/abc/title/"
  = Some "comments" /\
  contains "/comments/" "https://www.reddit.com/r/comments/" = true.
Proof. vm_compute. split; reflexivity. Qed.

(** ** Subreddit names *)

Lemma match_subreddit_inv s n :
  match_subreddit s = Some n ->
  n <> EmptyString /\ all_chars not_slash n = true /\
  exists tail, s = "/r/" ++ n ++ tail.
Proof.
  unfold match_subreddit.
  destruct (strip_prefix "/r/" s) as [rest|] eqn:Hstrip; [|discriminate].
  apply strip_prefix_inv in Hstrip.
  destruct (span not_slash rest) as [run tl] eqn:Hspan.
  apply span_inv in Hspan as (Hrest & Hall & _).
  destruct run as [|c run]; [discriminate|].
  intros [= <-]. split; [discriminate|]. split; [exact Hall|].
  exists tl. rewrite Hstrip, Hrest. reflexivity.
Qed.

Lemma search_subreddit_cons c url :
  search_subreddit (String c url) =
    match match_subreddit (String c url) with
    | Some n => Some n
    | None => search_subreddit url
    end.
Proof. reflexivity. Qed.

Lemma search_subreddit_inv url n :
  search_subreddit url = Some n ->
  n <> EmptyString /\ all_chars not_slash n = true /\
  contains ("/r/" ++ n) url = true.
Proof.
  induction url as [|c url IH].
  - vm_compute. discriminate.
  - rewrite search_subreddit_cons.
    destruct (match_subreddit (String c url)) as [m|] eqn:Hm.
    + intros [= ->]. apply match_subreddit_inv in Hm as (Hne & Hall & tail & Hs).
      split; [exact Hne|]. split; [exact Hall|].
      apply contains_spec. exists EmptyString, tail.
      rewrite Hs, !string_app_assoc. reflexivity.
    + intros H. destruct (IH H) as (Hne & Hall & Hc).
      split; [exact Hne|]. split; [exact Hall|]. apply contains_cons, Hc.
Qed.

(** X4.  The name [_extract_subreddit_name] returns is never empty and
    holds no slash, so the output directory and file names built from it
    stay inside [outputs]; it is either a segment that follows [/r/] in
    the URL or, when there is none, the fixed name
    "unknown_subreddit". *)
Theorem subreddit_name_shape (target_url : string) :
  let n := _extract_subreddit_name target_url in
  n <> EmptyString /\ all_chars not_slash n = true /\
  (contains ("/r/" ++ n) target_url = true \/
   (search_subreddit target_url = None /\ n = "unknown_subreddit")).
Proof.
  unfold _extract_subreddit_name.
  destruct (search_subreddit target_url) as [n|] eqn:Hs; simpl.
  - destruct (search_subreddit_inv _ _ Hs) as (Hne & Hall & Hc). auto.
  - split; [discriminate|]. split; [reflexivity|]. right. split; reflexivity.
Qed.

Lemma search_subreddit_site_prefix s :
  search_subreddit ("https://www.reddit.com" ++ s) = search_subreddit s.
Proof. reflexivity. Qed.

(** X5.  On a listing URL of the site, [https://www.reddit.com/r/<name>]
    alone or followed by a slash and anything, the extracted name is
    [<name>]. *)
Theorem subreddit_name_of_listing (name tail : string) :
  name <> EmptyString -> all_chars not_slash name = true ->
  tail = EmptyString \/ startswith "/" tail = true ->
  _extract_subreddit_name ("https://www.reddit.com/r/" ++ name ++ tail)
  = name.
Proof.
  intros Hne Hall Htail. unfold _extract_subreddit_name.
  change ("https://www.reddit.com/r/" ++ name ++ tail)
    with ("https://www.reddit.com" ++ String "/" ("r/" ++ name ++ tail)).
  rewrite search_subreddit_site_prefix, search_subreddit_cons.
  change (String "/" ("r/" ++ name ++ tail)) with ("/r/" ++ name ++ tail).
  unfold match_subreddit. rewrite strip_prefix_app.
  rewrite (span_app not_slash name tail Hall).
  - destruct name as [|c name]; [congruence|reflexivity].
  - destruct Htail as [->|Hs]; [exact I|].
    destruct tail as [|c tail]; [exact I|].
    change (Ascii.eqb "/"%char c && true = true) in Hs.
    rewrite andb_true_r in Hs.
    apply Ascii.eqb_eq in Hs. subst c. reflexivity.
Qed.

Lemma subreddit_name_of_listing_witness :
  _extract_subreddit_name ("https://www.reddit.com/r/" ++ "dogs" ++ "/new/")
  = "dogs".
Proof.
  apply (subreddit_name_of_listing "dogs" "/new/");
    [discriminate|reflexivity|right; reflexivity].
Defined.

(** ** The endpoint URL *)

Lemma before_query_app u s :
  all_chars not_question u = true ->
  before_query (u ++ s) = u ++ before_query s.
Proof.
  intros Hall. induction u as [|c u IH]; simpl; [reflexivity|].
  simpl in Hall. apply andb_prop in Hall as [Hc Hall].
  unfold not_question in Hc. apply negb_true_iff in Hc.
  rewrite Hc, (IH Hall). reflexivity.
Qed.

Lemma string_app_nil_r (s : string) : s ++ EmptyString = s.
Proof. induction s as [|c s IH]; simpl; [reflexivity|]. rewrite IH. reflexivity. Qed.

Lemma rstrip_slash_snoc s : rstrip_slash (s ++ "/") = rstrip_slash s.
Proof.
  induction s as [|c s IH]; simpl; [reflexivity|]. rewrite IH. reflexivity.
Qed.

Lemma rstrip_slash_no_trailing s r : rstrip_slash s <> r ++ "/".
Proof.
  revert r. induction s as [|c s IH]; intros r; simpl.
  - destruct r; discriminate.
  - destruct (rstrip_slash s) as [|c' t] eqn:Hs.
    + destruct (Ascii.eqb_spec c "/"%char) as [->|Hc].
      * destruct r; discriminate.
      * destruct r as [|c2 [|c3 r]]; simpl; try discriminate.
        intros [= ->]. congruence.
    + destruct r as [|c2 r]; simpl; [discriminate|].
      intros [= -> Heq]. exact (IH r Heq).
Qed.

(** X6.  The endpoint URL of [fetch_post_json] does not depend on the
    query string of the post URL nor on its trailing slashes, and the
    part before [.json] never ends with a slash. *)
Theorem json_url_normalises (u q : string) :
  all_chars not_question u = true ->
  json_url (u ++ "?" ++ q) = json_url u /\
  json_url (u ++ "/") = json_url u /\
  json_url (u ++ "/" ++ "?" ++ q) = json_url u /\
  forall post_url r, json_url post_url <> r ++ "/" ++ ".json".
Proof.
  intros Hall. unfold json_url.
  assert (Hq : forall s, before_query (u ++ "?" ++ s) = u).
  { intros s. rewrite (before_query_app u _ Hall). simpl.
    apply string_app_nil_r. }
  assert (Hu : before_query u = u).
  { rewrite <- (string_app_nil_r u) at 1.
    rewrite (before_query_app u _ Hall). simpl. apply string_app_nil_r. }
  split; [rewrite Hq, Hu; reflexivity|].
  assert (Hslash : all_chars not_question (u ++ "/") = true).
  { clear -Hall. induction u as [|c u IH]; simpl; [reflexivity|].
    simpl in Hall. apply andb_prop in Hall as [Hc Hall].
    rewrite Hc, (IH Hall). reflexivity. }
  split; [|split].
  - rewrite <- (string_app_nil_r (u ++ "/")) at 1.
    rewrite (before_query_app _ _ Hslash). simpl.
    rewrite string_app_nil_r, rstrip_slash_snoc, Hu. reflexivity.
  - rewrite <- string_app_assoc, (before_query_app _ _ Hslash). simpl.
    rewrite string_app_nil_r, rstrip_slash_snoc, Hu. reflexivity.
  - intros post_url r Heq. rewrite <- string_app_assoc in Heq.
    apply (rstrip_slash_no_trailing (before_query post_url) r).
    revert Heq. generalize (rstrip_slash (before_query post_url)) as a.
    generalize (r ++ "/") as b. clear.
    intros b a. revert b.
    induction a as [|c a IH]; intros [|c2 b]; simpl; intros Heq.
    + reflexivity.
    + injection Heq as _ Heq. destruct b as [|? [|? [|? [|? [|? ?]]]]];
        discriminate.
    + injection Heq as _ Heq. destruct a as [|? [|? [|? [|? [|? ?]]]]];
        discriminate.
    + injection Heq as <- Heq. rewrite (IH b Heq). reflexivity.
Qed.

Lemma json_url_normalises_witness :
  json_url ("https://www.reddit.com/r/dogs/comments/a1/title" ++ "/" ++ "?"
            ++ "utm_source=share")
  = json_url "https://www.reddit.com/r/dogs/comments/a1/title".
Proof.
  apply (json_url_normalises
           "https://www.reddit.com/r/dogs/comments/a1/title"
           "utm_source=share").
  reflexivity.
Defined.

Example json_url_example :
  json_url "https://www.reddit.com/r/dogs/comments/a1/title/?x=1"
  = "https://www.reddit.com/r/dogs/comments/a1/title.json".
Proof. vm_compute. reflexivity. Qed.

(* ===================================================================== *)
(** * Fetching a post, flushing the batch, reloading the checkpoint       *)
(* ===================================================================== *)

Section FetchPostJsonFacts.

Variable strftime : Z -> option string.
Variable str_lower : string -> string.
Variable json_loads : string -> option listing.

(** X7.  When [fetch_post_json] returns a record, neither the navigation
    nor the wait raised; the record was read from the non-empty text of
    the [pre] element of the page shown after the challenge check, the
    reloaded page if the check blocked; its [post_id] is the identifier
    of the requested URL; and its comments are the top-level nodes of the
    comment forest without the placeholders, in order, each one
    reconstructed with exact reply counts. *)
Theorem fetch_post_json_data (post_url : string) (v : visit)
  (p : post_record) :
  fetch_post_json strftime str_lower json_loads post_url v = FetchData p ->
  goto_raises v = false /\ settle_raises v = false /\
  post_id p = _extract_post_id post_url /\
  exists json_content info tree,
    pre_element
      match _check_and_handle_captcha_or_login str_lower (landed v) with
      | Blocked _ => reloaded v
      | Passed _ => landed v
      end
    = PreText (Some json_content) /\
    json_content <> EmptyString /\
    json_loads json_content
    = Some {| post_info := Some info; comments_tree := Some tree |} /\
    post_comments p = omap (_parse_comment strftime) tree /\
    Forall2 reconstructs
      (List.filter (fun ch => negb (is_more ch)) tree) (post_comments p).
Proof.
  unfold fetch_post_json.
  destruct (goto_raises v); [discriminate|].
  destruct (settle_raises v); [discriminate|]. simpl orb. cbv iota.
  intros H. split; [reflexivity|]. split; [reflexivity|].
  assert (Hread : read_post strftime json_loads post_url
                    match _check_and_handle_captcha_or_login str_lower (landed v) with
                    | Blocked _ => reloaded v
                    | Passed _ => landed v
                    end = FetchData p).
  { destruct (_check_and_handle_captcha_or_login str_lower (landed v));
      [destruct (operator_interrupts v); [discriminate|]|]; exact H. }
  clear H. revert Hread.
  generalize (match _check_and_handle_captcha_or_login str_lower (landed v) with
              | Blocked _ => reloaded v
              | Passed _ => landed v
              end) as shown.
  intros shown. unfold read_post.
  destruct (pre_element shown) as [|[json_content|]]; try discriminate.
  destruct (String.eqb_spec json_content EmptyString) as [|Hne];
    [discriminate|].
  destruct (json_loads json_content) as [[[info|] [tree|]]|] eqn:Hj;
    try discriminate.
  intros [= <-]. simpl. split; [reflexivity|].
  exists json_content, info, tree. repeat split; try assumption.
  apply parse_children_reconstruct.
  apply Forall_forall. intros ch _. apply parse_comment_some.
Qed.

End FetchPostJsonFacts.

Lemma fetch_post_json_data_witness :
  let v :=
    {| goto_raises := false; settle_raises := false;
       landed := widget_page; operator_interrupts := false;
       reloaded := json_page |} in
  let loads := fun _ : string =>
    Some {| post_info := Some {| pi_url := None; pi_title := Some "t" |};
            comments_tree := Some [] |} in
  let target := "https://www.reddit.com/r/dogs/comments/a1/title/" in
  let p :=
    {| post_id := Some "a1"; post_url := target; post_title := "t";
       post_comments := [] |} in
  fetch_post_json (fun _ => None) lower_ascii loads target v = FetchData p /\
  post_id p = _extract_post_id target.
Proof.
  intros v loads target p.
  assert (H : fetch_post_json (fun _ => None) lower_ascii loads target v = FetchData p)
    by (vm_compute; reflexivity).
  split; [exact H|].
  destruct (fetch_post_json_data (fun _ => None) lower_ascii loads target v p H)
    as (_ & _ & Hid & _).
  exact Hid.
Defined.

Example fetch_post_json_after_challenge :
  let v :=
    {| goto_raises := false; settle_raises := false;
       landed := widget_page; operator_interrupts := false;
       reloaded := json_page |} in
  let stub :=
    RawComment (Some "more")
      {| rf_author := None; rf_body := None;
         rf_score := None; rf_created_utc := None |} None in
  let reply :=
    RawComment (Some "t1")
      {| rf_author := Some "ann"; rf_body := Some "hello";
         rf_score := Some 2; rf_created_utc := None |} None in
  let loads := fun _ : string =>
    Some {| post_info := Some {| pi_url := None; pi_title := Some "t" |};
            comments_tree := Some [stub; reply] |} in
  match fetch_post_json (fun _ => None) lower_ascii loads
          "https://www.reddit.com/r/dogs/comments/a1/title/" v with
  | FetchData p =>
      post_id p = Some "a1" /\ map author (post_comments p) = ["ann"]
  | _ => False
  end.
Proof. vm_compute. split; reflexivity. Qed.

(** ** [save_data] *)

Lemma save_data_flush (self : crawler) (i j : Z) (d : disk) :
  (next_fault d).1 = WriteOk ->
  let out := save_data self i d in
  records (output_file out.2)
  = (records (output_file d) ++ all_posts_data self)%list /\
  all_posts_data out.1 = [] /\
  total_crawled_count out.1
  = (total_crawled_count self + length (all_posts_data self))%nat /\
  save_data out.1 j out.2 = out.
Proof.
  intros Hok. unfold save_data.
  destruct (all_posts_data self) as [|post0 posts] eqn:Hall.
  - simpl. rewrite Hall, app_nil_r, Nat.add_0_r. repeat split.
  - destruct (next_fault d) as [f fs]. simpl in Hok. subst f.
    cbn -[update_progress_index].
    rewrite update_progress_index_output. cbn -[update_progress_index].
    unfold records. repeat split; try reflexivity.
Qed.

(** X8.  When the write of the output file succeeds, [save_data] leaves
    in the file the records it held before followed by the pending batch,
    empties the batch and adds its size to the counter; a second call
    then changes nothing, so no record is written twice.  An output file
    that cannot be parsed counts as holding no record. *)
Theorem save_data_flushes_once (self : crawler) (i j : Z) (d : disk) :
  (next_fault d).1 = WriteOk ->
  let out := save_data self i d in
  records (output_file out.2)
  = (records (output_file d) ++ all_posts_data self)%list /\
  all_posts_data out.1 = [] /\
  total_crawled_count out.1
  = (total_crawled_count self + length (all_posts_data self))%nat /\
  save_data out.1 j out.2 = out.
Proof. apply save_data_flush. Qed.

Lemma save_data_flushes_once_witness :
  let self :=
    {| subreddit_url := dogs; max_posts := 3;
       all_posts_data := [post "a2"]; total_crawled_count := 1 |} in
  let d :=
    {| state_file := Content fetching_checkpoint;
       output_file := Content [post "a1"]; faults := []; log := [] |} in
  records (output_file (save_data self 3 d).2) = [post "a1"; post "a2"] /\
  save_data (save_data self 3 d).1 3 (save_data self 3 d).2
  = save_data self 3 d.
Proof.
  intros self d.
  destruct (save_data_flushes_once self 3 3 d) as (Hrec & _ & _ & Hagain).
  - reflexivity.
  - split; [exact Hrec|exact Hagain].
Defined.

(** ** The checkpoint read back *)

(** X9.  A fetch-phase checkpoint is read back as it was updated: after
    [update_progress_index] has written the index [i], within the stored
    list, [load_progress] of a crawler whose [max_posts] the list reaches
    resumes Phase 2 at [i] with the stored candidates and progress data
    unchanged, and takes over the count of crawled posts. *)
Theorem update_then_load (self restarted : crawler) (i : Z) (d : disk)
  (sd : state_data) :
  state_file d = Content sd ->
  (next_fault d).1 = WriteOk ->
  (max_posts restarted <= length (collected_urls_with_source sd))%nat ->
  i <= Z.of_nat (length (collected_urls_with_source sd)) ->
  load_progress restarted (update_progress_index self i d)
  = ({| p_current_index := i;
        p_url_list := collected_urls_with_source sd;
        p_is_collection_complete := true;
        p_collection_progress := url_collection_progress sd |},
     with_total restarted (total_crawled_count self)).
Proof.
  intros Hsf Hok Hmax Hi.
  unfold update_progress_index, write_state. rewrite Hsf.
  destruct (next_fault d) as [f fs]. simpl in Hok. subst f.
  unfold load_progress. simpl.
  apply Nat.leb_le in Hmax. apply Z.leb_le in Hi.
  rewrite Hmax, Hi. reflexivity.
Qed.

Lemma update_then_load_witness :
  p_current_index
    (load_progress (new_crawler dogs 3)
       (update_progress_index (new_crawler dogs 3) 3
          (disk_with fetching_checkpoint))).1 = 3.
Proof.
  rewrite (update_then_load (new_crawler dogs 3) (new_crawler dogs 3) 3
             (disk_with fetching_checkpoint) fetching_checkpoint);
    [reflexivity|reflexivity|reflexivity|simpl; lia|simpl; lia].
Defined.

(* ===================================================================== *)
(** * What Phase 1 keeps, adds and leaves alone                           *)
(* ===================================================================== *)

(** X10.  The loop over a page only appends: the candidates collected
    before stay in place, and the new ones come, in the order of the
    page, from items that have an id, a permalink and a non-zero
    creation time, each one built by [candidate_of].  A list within
    [max_posts] stays within it, and the id set only grows. *)
Theorem process_posts_appends (limit : nat) (posts : list api_post)
  (urls : list candidate) (ids : gset string) :
  exists new,
    (process_posts limit posts urls ids).1 = (urls ++ new)%list /\
    new `sublist_of` map candidate_of (List.filter has_all_fields posts) /\
    ((length urls <= limit)%nat ->
     (length (process_posts limit posts urls ids).1 <= limit)%nat) /\
    ids ⊆ (process_posts limit posts urls ids).2.
Proof. apply process_posts_grows. Qed.

(** X11.  On a listing target, whatever the API answers, the list
    [collect_post_urls] returns starts with the candidates it was given,
    in their order, and has at most [max_posts] entries: resuming never
    drops, moves or replaces a candidate collected before. *)
Theorem collect_post_urls_extends
  (self : crawler) (target_url : string) (existing_urls : list candidate)
  (progress : option collection_progress) (script : upstream)
  (d : disk) (urls : list candidate) :
  listing_target target_url = true ->
  (collect_post_urls self target_url existing_urls progress script d).1
  = Returned urls ->
  take (max_posts self) existing_urls `prefix_of` urls /\
  (length urls <= max_posts self)%nat /\
  ((length existing_urls <= max_posts self)%nat ->
   existing_urls `prefix_of` urls).
Proof.
  intros Htarget. unfold listing_target in Htarget.
  apply andb_prop in Htarget as [Htarget Hname2].
  apply andb_prop in Htarget as [Hpost Hname1].
  apply negb_true_iff in Hpost, Hname1, Hname2.
  unfold collect_post_urls. rewrite Hpost, Hname1, Hname2. simpl orb.
  cbv iota.
  pose proof (collect_loop_keeps self (_extract_subreddit_name target_url) script
                (collect_init existing_urls progress) d) as (Hp & _).
  pose proof (collect_loop_returned self (_extract_subreddit_name target_url) script
                (collect_init existing_urls progress) d urls) as Hret.
  destruct (collect_loop self _ script _ d) as [[res st'] d']. simpl in *.
  intros Hres. specialize (Hret Hres). subst urls.
  assert (Hinit : collected_urls (collect_init existing_urls progress)
                  = existing_urls) by (destruct progress; reflexivity).
  rewrite Hinit in Hp.
  split; [apply take_prefix_mono, Hp|].
  split; [rewrite length_take; lia|].
  intros Hlen. rewrite <- (take_ge existing_urls (max_posts self)) at 1
    by exact Hlen.
  apply take_prefix_mono, Hp.
Qed.

Lemma collect_post_urls_extends_witness :
  [cand "a1" 300] `prefix_of` [cand "a1" 300; cand "a2" 200].
Proof.
  apply (collect_post_urls_extends (new_crawler dogs 5) dogs
           [cand "a1" 300] None
           [fixed (Reply 200 (Some [item "a1" 300; item "a2" 200]));
            fixed (Reply 200 (Some []))]
           empty_disk [cand "a1" 300; cand "a2" 200]).
  - reflexivity.
  - vm_compute. reflexivity.
  - simpl. lia.
Defined.

Lemma collect_post_urls_keeps_files
  (self : crawler) (target_url : string) (existing_urls : list candidate)
  (progress : option collection_progress) (script : upstream)
  (d : disk) :
  let d' :=
    (collect_post_urls self target_url existing_urls progress script d).2 in
  output_file d' = output_file d /\
  (stored_index d' = stored_index d \/ stored_index d' = None \/
   stored_index d' = Some 1).
Proof.
  unfold collect_post_urls.
  destruct (contains "/comments/" target_url); [simpl; auto|].
  destruct (_ || _); [simpl; auto|].
  pose proof (collect_loop_keeps self (_extract_subreddit_name target_url) script
                (collect_init existing_urls progress) d) as (_ & _ & Ho & Hi).
  destruct (collect_loop self _ script _ d) as [[res st'] d']. simpl in *.
  auto.
Qed.

(** X12.  Phase 1 never writes the output file, and the only index it
    ever puts in the state file is 1: after [collect_post_urls] the
    stored index is the one found before, or 1, or the file holds no
    document. *)
Theorem collect_post_urls_files
  (self : crawler) (target_url : string) (existing_urls : list candidate)
  (progress : option collection_progress) (script : upstream)
  (d : disk) :
  let d' :=
    (collect_post_urls self target_url existing_urls progress script d).2 in
  output_file d' = output_file d /\
  (stored_index d' = stored_index d \/ stored_index d' = None \/
   stored_index d' = Some 1).
Proof. apply collect_post_urls_keeps_files. Qed.

(* ===================================================================== *)
(** * What Phase 2 emits, counts and leaves alone                         *)
(* ===================================================================== *)

(** A property of the crawler and its disk that survives the append to
    the batch and every [save_data] survives an iteration of the fetch
    loop, the loop, and the whole fetch phase. *)
Section FetchInvariant.

Variable P : crawler -> disk -> Prop.
Hypothesis P_append : forall self d p, P self d -> P (with_post self p) d.
Hypothesis P_save :
  forall self d i,
    P self d -> P (save_data self i d).1 (save_data self i d).2.
Hypothesis P_remove :
  forall self d, P self d -> P self (with_state_file d Missing).

Lemma fetch_iteration_preserves it index ls :
  P (ls_self ls) (ls_disk ls) ->
  P (ls_self (fetch_iteration it index ls).2)
    (ls_disk (fetch_iteration it index ls).2).
Proof.
  intros HP. unfold fetch_iteration.
  assert (Hafter : forall ls0,
             P (ls_self ls0) (ls_disk ls0) ->
             P (ls_self (after_fetch it ls0).2)
               (ls_disk (after_fetch it ls0).2)).
  { intros ls0 H0. unfold after_fetch, after_exception.
    destruct (delay_raises it); [|exact H0].
    destruct (3 <=? _)%nat; [exact H0|].
    destruct (retry_delay_raises it); exact H0. }
  destruct (fetched it) as [post_data| |]; loop_simpl.
  - fold (with_post (ls_self ls) post_data).
    match goal with
    | |- context [if ?c then save_data ?s ?i ?d0 else _] =>
        pose proof (P_save s d0 i (P_append _ _ post_data HP)) as Hs;
        destruct c; [destruct (save_data s i d0) as [self2 d2]|]
    end; apply Hafter; loop_simpl; auto.
  - destruct (3 <=? _)%nat; [exact HP|]. apply Hafter. exact HP.
  - exact HP.
Qed.

Lemma fetch_loop_preserves fetch url_list n :
  forall index ls,
    P (ls_self ls) (ls_disk ls) ->
    P (ls_self (fetch_loop fetch url_list n index ls).2)
      (ls_disk (fetch_loop fetch url_list n index ls).2).
Proof.
  induction n as [|n IH]; intros index ls HP; simpl; [exact HP|].
  destruct (py_index url_list index); [|exact HP].
  pose proof (fetch_iteration_preserves (fetch index) index ls HP) as Hit.
  destruct (fetch_iteration (fetch index) index ls) as [[e|] ls'];
    [exact Hit|apply IH, Hit].
Qed.

Lemma finally_preserves self d e url_list current_index completed :
  P self d ->
  P (r_self (finally self d e url_list current_index completed))
    (r_disk (finally self d e url_list current_index completed)).
Proof.
  intros HP. unfold finally.
  pose proof (P_save self d current_index HP) as Hs.
  destruct (save_data self current_index d) as [self' d']. simpl in *.
  destruct completed; [apply P_remove|]; exact Hs.
Qed.

Lemma fetch_phase_preserves env self d url_list current_index :
  P self d ->
  P (r_self (fetch_phase env self d url_list current_index))
    (r_disk (fetch_phase env self d url_list current_index)).
Proof.
  intros HP. unfold fetch_phase.
  destruct (init_browser_raises env); [apply finally_preserves, HP|].
  match goal with
  | |- context [fetch_loop ?f ?u ?n ?i ?ls] =>
      pose proof (fetch_loop_preserves f u n i ls HP) as Hloop;
      destruct (fetch_loop f u n i ls) as [e ls']
  end.
  apply finally_preserves, Hloop.
Qed.

End FetchInvariant.

(** ** The stored candidates *)

Lemma update_progress_index_urls self i d :
  stored_urls (update_progress_index self i d) = stored_urls d \/
  stored_urls (update_progress_index self i d) = None.
Proof.
  unfold update_progress_index, write_state, next_fault, logged, stored_urls.
  destruct (state_file d) eqn:Hsf; simpl; try rewrite Hsf; auto.
  destruct (faults d) as [|[| |] fs]; simpl; try rewrite Hsf; auto.
Qed.

Lemma save_data_urls kept self i d :
  candidates_kept kept d -> candidates_kept kept (save_data self i d).2.
Proof.
  intros Hk. unfold save_data, next_fault.
  destruct (all_posts_data self) as [|post0 posts]; [exact Hk|].
  assert (Hupd : forall s d0,
             stored_urls d0 = stored_urls d ->
             candidates_kept kept (update_progress_index s i d0)).
  { intros s d0 H0. unfold candidates_kept in *.
    destruct (update_progress_index_urls s i d0) as [H|H]; rewrite H; auto.
    rewrite H0. exact Hk. }
  destruct (faults d) as [|[| |] fs]; cbn -[update_progress_index];
    try (apply Hupd; reflexivity); exact Hk.
Qed.

(** X13.  The fetch phase never changes the candidate list in the state
    file: whatever the fetches and the writes do, the file afterwards
    holds the list it held before, or no document at all. *)
Theorem fetch_phase_keeps_candidates
  (env : environment) (self : crawler) (d : disk)
  (url_list : list candidate) (current_index : Z) :
  let r := fetch_phase env self d url_list current_index in
  stored_urls (r_disk r) = stored_urls d \/ stored_urls (r_disk r) = None.
Proof.
  apply (fetch_phase_preserves (fun _ d0 => candidates_kept (stored_urls d) d0)).
  - intros _ d0 _ H. exact H.
  - intros s d0 i H. apply save_data_urls, H.
  - intros _ d0 _. right. reflexivity.
  - left. reflexivity.
Qed.

(** ** Counting the records *)

Lemma update_progress_index_faults self i d :
  faults d = [] -> faults (update_progress_index self i d) = [].
Proof.
  intros Hd. unfold update_progress_index, write_state, next_fault, logged.
  destruct (state_file d); simpl; try exact Hd. rewrite Hd. reflexivity.
Qed.

Lemma save_data_faults self i d :
  faults d = [] -> faults (save_data self i d).2 = [].
Proof.
  intros Hd. unfold save_data, next_fault.
  destruct (all_posts_data self) as [|post0 posts]; [exact Hd|].
  rewrite Hd. cbn -[update_progress_index].
  apply update_progress_index_faults. reflexivity.
Qed.

Lemma save_data_accounted earlier self i d :
  accounted earlier self d ->
  accounted earlier (save_data self i d).1 (save_data self i d).2.
Proof.
  intros (Hf & Hcount & Hpre). unfold accounted.
  destruct (save_data_flush self i i d) as (Hrec & _ & Htotal & _).
  { unfold next_fault. rewrite Hf. reflexivity. }
  split; [apply save_data_faults, Hf|].
  rewrite Hrec, Htotal, length_app, Hcount.
  split; [reflexivity|]. apply prefix_app_r, Hpre.
Qed.

Lemma fetch_phase_flushes env self d url_list current_index :
  faults d = [] ->
  all_posts_data (r_self (fetch_phase env self d url_list current_index))
  = [].
Proof.
  intros Hd.
  assert (Hfin : forall s d0 e c completed,
             faults d0 = [] ->
             all_posts_data (r_self (finally s d0 e url_list c completed))
             = []).
  { intros s d0 e c completed H0. unfold finally.
    destruct (save_data_flush s c c d0) as (_ & Hb & _).
    { unfold next_fault. rewrite H0. reflexivity. }
    destruct (save_data s c d0) as [s' d']. exact Hb. }
  unfold fetch_phase.
  destruct (init_browser_raises env); [apply Hfin, Hd|].
  match goal with
  | |- context [fetch_loop ?f ?u ?n ?i ?ls] =>
      pose proof (fetch_loop_preserves (fun _ d0 => faults d0 = [])
                    (fun _ _ _ H => H)
                    (fun s d0 j H => save_data_faults s j d0 H)
                    f u n i ls Hd) as Hloop;
      destruct (fetch_loop f u n i ls) as [e ls']
  end.
  apply Hfin, Hloop.
Qed.

Lemma collect_loop_faults self name script :
  forall st d,
    faults d = [] -> faults (collect_loop self name script st d).2 = [].
Proof.
  assert (Hfinish : forall st d,
             faults d = [] -> faults (finish self st d).2 = []).
  { intros st d Hd. unfold finish; simpl.
    destruct (_ || _); [|exact Hd].
    apply save_url_collection_progress_no_fault, Hd. }
  induction script as [|r script IH]; intros st d Hd.
  - rewrite collect_loop_nil. destruct (_ <? _)%nat; [exact Hd|].
    apply Hfinish, Hd.
  - rewrite collect_loop_cons. destruct (_ <? _)%nat; [|apply Hfinish, Hd].
    pose proof (collect_step_no_fault self (r (request_of self name st)) st d
                  Hd) as Hstep.
    destruct (collect_step self (r (request_of self name st)) st d)
      as [st' d'|st' d'|st' d'];
      [apply IH, Hstep|apply Hfinish, Hstep|exact Hstep].
Qed.

Lemma collect_post_urls_faults self target existing progress script d :
  faults d = [] ->
  faults (collect_post_urls self target existing progress script d).2 = [].
Proof.
  intros Hd. unfold collect_post_urls.
  destruct (contains "/comments/" target); [exact Hd|].
  destruct (_ || _); [exact Hd|].
  pose proof (collect_loop_faults self (_extract_subreddit_name target)
                script (collect_init existing progress) d Hd) as H.
  destruct (collect_loop self _ script _ d) as [[res st'] d']. exact H.
Qed.

(** X14.  When no write fails and the counter loaded at the start is the
    number of records in the output file, then at the end of
    [crawl_posts], however the run ends, no record is left in memory,
    the counter is again the number of records in the output file, and
    the records present before are still at the head of the file. *)
Theorem crawl_posts_accounts_for_records
  (self : crawler) (env : environment) (d : disk) :
  faults d = [] ->
  all_posts_data self = [] ->
  length (records (output_file d))
  = total_crawled_count (load_progress self d).2 ->
  let r := crawl_posts self env d in
  all_posts_data (r_self r) = [] /\
  length (records (output_file (r_disk r))) = total_crawled_count (r_self r) /\
  records (output_file d) `prefix_of` records (output_file (r_disk r)).
Proof.
  intros Hd Hbatch Hcount. unfold crawl_posts.
  destruct (load_progress self d) as [p self0] eqn:Hload.
  assert (Hbatch0 : all_posts_data self0 = []).
  { revert Hload. unfold load_progress.
    destruct (state_file d) as [|sd|]; try (intros [= _ <-]; exact Hbatch).
    repeat case_match; intros [= _ <-]; exact Hbatch. }
  simpl in Hcount.
  assert (Hacc : accounted (records (output_file d)) self0 d)
    by (split; [exact Hd|]; split; [exact Hcount|reflexivity]).
  assert (Hphase : forall d0 url_list current_index,
             accounted (records (output_file d)) self0 d0 ->
             let r := fetch_phase env self0 d0 url_list current_index in
             all_posts_data (r_self r) = [] /\
             length (records (output_file (r_disk r)))
             = total_crawled_count (r_self r) /\
             records (output_file d)
               `prefix_of` records (output_file (r_disk r))).
  { intros d0 url_list current_index H0 r. subst r.
    split; [apply fetch_phase_flushes, H0|].
    apply (fetch_phase_preserves (accounted (records (output_file d))));
      [intros s d1 q H; exact H
      |intros s d1 i H; apply save_data_accounted, H
      |intros s d1 H; exact H
      |exact H0]. }
  assert (Hfin : forall d0 e c,
             accounted (records (output_file d)) self0 d0 ->
             let r := finally self0 d0 e [] c false in
             all_posts_data (r_self r) = [] /\
             length (records (output_file (r_disk r)))
             = total_crawled_count (r_self r) /\
             records (output_file d)
               `prefix_of` records (output_file (r_disk r))).
  { intros d0 e c H0. unfold finally, save_data. rewrite Hbatch0. simpl.
    split; [exact Hbatch0|]. destruct H0 as (_ & H1 & H2). auto. }
  destruct (_ && _); [apply Hphase, Hacc|].
  destruct (negb _); [|apply Hphase, Hacc].
  unfold collect_phase.
  pose proof (collect_post_urls_keeps_files self0 (subreddit_url self0)
                (p_url_list p) (p_collection_progress p) (api env) d)
    as (Hout & _).
  pose proof (collect_post_urls_faults self0 (subreddit_url self0)
                (p_url_list p) (p_collection_progress p) (api env) d Hd)
    as Hf1.
  destruct (collect_post_urls _ _ _ _ _ _) as [res d1]. simpl in Hout, Hf1.
  assert (Hacc1 : accounted (records (output_file d)) self0 d1).
  { destruct Hacc as (_ & H1 & H2). unfold accounted.
    rewrite Hout. auto. }
  destruct res as [[|c urls]| |].
  - apply Hfin, Hacc1.
  - apply Hphase. destruct Hacc1 as (H0 & H1 & H2).
    unfold accounted, save_progress.
    rewrite write_state_no_fault by exact H0. simpl. auto.
  - apply Hfin, Hacc1.
  - simpl. destruct Hacc1 as (_ & H1 & H2). auto.
Qed.

Lemma crawl_posts_accounts_for_records_witness :
  let r := crawl_posts (new_crawler dogs 5) interrupted_at_second
             empty_disk in
  all_posts_data (r_self r) = [] /\
  length (records (output_file (r_disk r))) = total_crawled_count (r_self r).
Proof.
  intros r.
  destruct (crawl_posts_accounts_for_records (new_crawler dogs 5)
              interrupted_at_second empty_disk) as (H1 & H2 & _);
    [reflexivity|reflexivity|reflexivity|].
  split; [exact H1|exact H2].
Defined.

(** ** Failures and successes in a row *)

Lemma py_index_in_range {A} (l : list A) (i : Z) :
  0 <= i < Z.of_nat (length l) -> is_Some (py_index l i).
Proof.
  intros Hi. unfold py_index.
  replace (0 <=? i) with true by (symmetry; apply Z.leb_le; lia).
  apply lookup_lt_is_Some. lia.
Qed.

Lemma fetch_loop_failure fetch url_list n index ls :
  0 <= index < Z.of_nat (length url_list) ->
  plain_failure (fetch index) = true ->
  let ls1 :=
    {| ls_self := ls_self ls; ls_disk := ls_disk ls;
       ls_current_index := index + 1;
       ls_consecutive_failures := (ls_consecutive_failures ls + 1)%nat |} in
  fetch_loop fetch url_list (S n) index ls =
    if (3 <=? ls_consecutive_failures ls + 1)%nat
    then (FailureCeiling, ls1)
    else fetch_loop fetch url_list n (index + 1) ls1.
Proof.
  intros Hi Hf ls1. cbn [fetch_loop].
  destruct (py_index_in_range url_list index Hi) as [c ->].
  unfold fetch_iteration, plain_failure in *.
  destruct (fetched (fetch index)); try discriminate.
  apply negb_true_iff in Hf. loop_simpl. fold ls1.
  destruct (3 <=? _)%nat; [reflexivity|].
  unfold after_fetch. rewrite Hf. reflexivity.
Qed.

(** X15.  Three fetches in a row that return nothing stop the fetch
    loop: it ends at the failure ceiling no later than the third of
    them, the candidates after it are not attempted, and the crawler and
    the disk are as they were before the first. *)
Theorem fetch_loop_stops_after_three_failures
  (fetch : Z -> iteration) (url_list : list candidate) (n : nat)
  (index : Z) (ls : loop_state) :
  0 <= index -> index + 2 < Z.of_nat (length url_list) -> (3 <= n)%nat ->
  plain_failure (fetch index) = true ->
  plain_failure (fetch (index + 1)) = true ->
  plain_failure (fetch (index + 2)) = true ->
  exists ls',
    fetch_loop fetch url_list n index ls = (FailureCeiling, ls') /\
    ls_self ls' = ls_self ls /\ ls_disk ls' = ls_disk ls /\
    index + 1 <= ls_current_index ls' <= index + 3.
Proof.
  intros H0 Hlen Hn F1 F2 F3.
  destruct n as [|[|[|n]]]; try lia.
  rewrite (fetch_loop_failure fetch url_list _ index ls) by (lia || exact F1).
  destruct (3 <=? ls_consecutive_failures ls + 1)%nat eqn:E1.
  { eexists. split; [reflexivity|]. simpl. repeat split; lia. }
  rewrite (fetch_loop_failure fetch url_list _ (index + 1))
    by (lia || exact F2).
  loop_simpl.
  destruct (3 <=? ls_consecutive_failures ls + 1 + 1)%nat eqn:E2.
  { eexists. split; [reflexivity|]. simpl. repeat split; lia. }
  replace (index + 1 + 1) with (index + 2) by lia.
  rewrite (fetch_loop_failure fetch url_list _ (index + 2))
    by (lia || exact F3).
  loop_simpl.
  replace (3 <=? _)%nat with true by (symmetry; apply Nat.leb_le; lia).
  eexists. split; [reflexivity|]. simpl. repeat split; lia.
Qed.

Lemma fetch_loop_stops_after_three_failures_witness :
  exists ls',
    fetch_loop (fun _ => fetch_none)
      [cand "a1" 400; cand "a2" 300; cand "a3" 200; cand "a4" 100] 4 0
      {| ls_self := new_crawler dogs 4; ls_disk := empty_disk;
         ls_current_index := 1; ls_consecutive_failures := 0 |}
    = (FailureCeiling, ls') /\
    ls_current_index ls' <= 3.
Proof.
  destruct (fetch_loop_stops_after_three_failures (fun _ => fetch_none)
              [cand "a1" 400; cand "a2" 300; cand "a3" 200; cand "a4" 100]
              4 0
              {| ls_self := new_crawler dogs 4; ls_disk := empty_disk;
                 ls_current_index := 1; ls_consecutive_failures := 0 |})
    as (ls' & Hloop & _ & _ & Hidx);
    [lia|simpl; lia|lia|reflexivity|reflexivity|reflexivity|].
  exists ls'. split; [exact Hloop|lia].
Defined.







(* ===================================================================== *)
(** * When the challenge check suspends the run                           *)
(* ===================================================================== *)

Lemma first_visible_true els :
  first_visible els = Some true -> Some true ∈ els.
Proof.
  induction els as [|[[|]|] els IH]; simpl; try discriminate.
  - intros _. apply list_elem_of_here.
  - intros H. apply list_elem_of_further, IH, H.
Qed.

(** X17.  The challenge check suspends the run only on evidence: one of
    the fixed selectors has a visible element on the page, or the text of
    the page body, as lower-cased by [str.lower()], holds one of the
    fixed keywords.  A probe that raises, a hidden element or an absent
    body text never suspends the run. *)
Theorem check_blocks_on_evidence (str_lower : string -> string) (p : page)
  (src : challenge_source) :
  _check_and_handle_captcha_or_login str_lower p = Blocked src ->
  (src = BySelector /\
   exists sel els,
     sel ∈ captcha_selectors /\
     query_selector_all p sel = Elements els /\ Some true ∈ els) \/
  (src = ByKeyword /\
   exists page_text keyword,
     body_text p = BodyText (Some page_text) /\
     keyword ∈ captcha_keywords /\
     contains keyword (str_lower page_text) = true).
Proof.
  unfold _check_and_handle_captcha_or_login.
  destruct (scan_selectors p) eqn:Hscan.
  - intros [= <-]. left. split; [reflexivity|].
    unfold scan_selectors in Hscan.
    apply existsb_exists in Hscan as (sel & Hin & Hm).
    exists sel. unfold selector_matches in Hm.
    destruct (query_selector_all p sel) as [|els]; [discriminate|].
    exists els. split; [apply list_elem_of_In, Hin|].
    split; [reflexivity|]. apply first_visible_true.
    destruct (first_visible els) as [[|]|]; try discriminate. reflexivity.
  - destruct (pre_element p) as [|[s|]]; try discriminate.
    destruct (has_post_fields s); [discriminate|].
    destruct (scan_keywords str_lower (body_text p)) eqn:Hk; [|discriminate].
    intros [= <-]. right. split; [reflexivity|].
    apply scan_keywords_true_iff in Hk
      as (page_text & keyword & Hb & _ & Hin & Hc).
    exists page_text, keyword. split; [exact Hb|]. split; assumption.
Qed.

Lemma check_blocks_on_evidence_witness :
  exists sel els,
    sel ∈ captcha_selectors /\
    query_selector_all widget_page sel = Elements els /\ Some true ∈ els.
Proof.
  destruct (check_blocks_on_evidence lower_ascii widget_page BySelector
              eq_refl)
    as [[_ H]|[Hsrc _]]; [exact H|discriminate].
Defined.

(** On a page without widget whose [pre] element does not hold a post,
    a keyword in the lower-cased body text suspends the run. *)
Example check_blocks_on_keyword (str_lower : string -> string) :
  str_lower "Please Sign In to continue" = "please sign in to continue" ->
  _check_and_handle_captcha_or_login str_lower login_wall
  = Blocked ByKeyword.
Proof.
  intros Hlower.
  unfold _check_and_handle_captcha_or_login, login_wall, scan_keywords.
  cbn [pre_element body_text]. rewrite Hlower. vm_compute. reflexivity.
Qed.
